(** * Feasibility tests for fixed-priority and dynamic-priority scheduling

    A shallow embedding of [feasibility_tests.c] (Jetson part of the stop-sign
    detection project): the completion-time test, the scheduling-point test,
    the rate-monotonic least upper bound and the EDF / LLF utilization tests,
    followed by the properties the specification states about them and by
    further properties of the tests and of [main].  The sequencer and the
    execution records of the firmware of the robot ([freertos_demo.c]) are
    embedded in the module [Firmware].

    Conventions of the embedding.
    - [U32_T] values are integers of [Z] in the range [0 .. U32_MAX]; unsigned
      arithmetic wraps modulo [2^32] and is written out with [mod].
    - a C array is a [list Z]; reading past its end is undefined behaviour.
    - the counters [i], [j], [k] and [idx] run over the indices of the arrays
      and are natural numbers; the counter [l] of the scheduling-point test
      runs up to a quotient of periods, and its range as an [int] is part of
      the model.
    - a C function returns an [outcome]: [Ret v] when it returns [v], [Undef]
      when the execution runs into behaviour the C standard leaves undefined,
      [Timeout] when the fuel given to a loop is exhausted.
    - a [double] is an IEEE 754 binary64 number, [spec_float] with precision
      53 and maximal exponent 1024; the [printf] calls are diagnostics and are
      left out. *)

From Stdlib Require Import ZArith List Lia Bool.
From Stdlib Require Import SpecFloat.
From Stdlib Require String.
Import ListNotations.
Import String.StringSyntax.
Delimit Scope string_scope with string.

Local Open Scope Z_scope.

(** ** Outcomes of C computations *)

Inductive outcome (A : Type) : Type :=
| Ret (a : A)
| Undef
| Timeout.

Arguments Ret {A} a.
Arguments Undef {A}.
Arguments Timeout {A}.

Definition bind {A B : Type} (c : outcome A) (k : A -> outcome B) : outcome B :=
  match c with
  | Ret a => k a
  | Undef => Undef
  | Timeout => Timeout
  end.

Notation "x <- c ;; k" := (bind c (fun x => k))
  (at level 61, c at next level, right associativity).

(** ** Machine integers and arrays *)

(** [#define TRUE 1], [#define FALSE 0]. *)
Definition TRUE : Z := 1.
Definition FALSE : Z := 0.

Definition U32_MAX : Z := 4294967295.
Definition INT_MAX : Z := 2147483647.

(** Wrap-around of unsigned arithmetic on [U32_T]. *)
Definition wrap32 (v : Z) : Z := v mod (U32_MAX + 1).

(** [arr[i]]: defined only inside the array. *)
Definition read (arr : list Z) (i : nat) : outcome Z :=
  match nth_error arr i with
  | Some v => Ret v
  | None => Undef
  end.

(** Conversion of an integral [double] value to [U32_T] (the implicit
    conversion of [x += d] with [x] unsigned and [d] a double): defined only
    when the value is representable (C11 6.3.1.4). *)
Definition to_u32 (v : Z) : outcome Z :=
  if (0 <=? v) && (v <=? U32_MAX) then Ret v else Undef.

(** Ceiling of a quotient with a positive divisor. *)
Definition cdiv (a p : Z) : Z := (a + p - 1) / p.

(** The statement [acc += ceil((double)a / p) * w] with [acc], [a], [p], [w]
    of type [U32_T].  The operands convert to [double] exactly.  For [p > 0]
    the rounded quotient lies strictly between the two neighbouring integers
    whenever [a / p] is not one (its distance to them is at least [1 / p],
    far above half an ulp), so [ceil] yields the exact ceiling.  The product
    and the sum are exact below [2^53] and rounding is monotone, so the value
    converted back to [U32_T] is the exact integer when this is at most
    [U32_MAX] and is out of range otherwise.  For [p = 0] the quotient is an
    infinity or a NaN, which stays one up to the conversion. *)
Definition add_ceil_mul (acc a p w : Z) : outcome Z :=
  if p =? 0 then Undef else to_u32 (acc + cdiv a p * w).

(** A [for] loop without [break] over the indices [js], threading the
    variable it updates. *)
Fixpoint for_each {S : Type} (js : list nat) (body : nat -> S -> outcome S)
  (s : S) : outcome S :=
  match js with
  | [] => Ret s
  | j :: js' => s' <- body j s ;; for_each js' body s'
  end.

(** ** The completion-time test *)

(** [an = 0; for (j = 0; j <= i; j++) an += wcet[j];] *)
Definition seed (wcet : list Z) (i : nat) : outcome Z :=
  for_each (seq 0 (S i))
    (fun j an => w <- read wcet j ;; Ret (wrap32 (an + w))) 0.

(** [anext = wcet[i]; for (j = 0; j < i; j++) anext += ceil(...) * wcet[j];] *)
Definition next_iterate (period wcet : list Z) (i : nat) (an : Z) : outcome Z :=
  wi <- read wcet i ;;
  for_each (seq 0 i)
    (fun j anext =>
       pj <- read period j ;;
       wj <- read wcet j ;;
       add_ceil_mul anext an pj wj) wi.

(** The [do ... while (1)] loop: it is left only through
    [if (anext == an) break;]. *)
Fixpoint iterate (fuel : nat) (period wcet : list Z) (i : nat) (an : Z)
  : outcome Z :=
  match fuel with
  | O => Timeout
  | S fuel' =>
      anext <- next_iterate period wcet i an ;;
      if anext =? an then Ret an
      else iterate fuel' period wcet i anext
  end.

(** The loop over the tasks, with [return FALSE] inside. *)
Fixpoint completion_loop (fuel : nat) (period wcet deadline : list Z)
  (tasks : list nat) : outcome Z :=
  match tasks with
  | [] => Ret TRUE
  | i :: rest =>
      an0 <- seed wcet i ;;
      an <- iterate fuel period wcet i an0 ;;
      d <- read deadline i ;;
      if d <? an then Ret FALSE
      else completion_loop fuel period wcet deadline rest
  end.

Definition completion_time_feasibility (fuel : nat) (numServices : nat)
  (period wcet deadline : list Z) : outcome Z :=
  completion_loop fuel period wcet deadline (seq 0 numServices).

(** ** The scheduling-point test *)

(** The value of [floor((double)period[i] / period[k])]: an integer, or an
    infinity or a NaN when the divisor is zero. *)
Inductive bound : Type :=
| Fin (q : Z)
| PInf
| NaN.

Definition floor_quot (a p : Z) : bound :=
  if p =? 0 then (if a =? 0 then NaN else PInf) else Fin (a / p).

(** [l <= b], the comparison of the loop test, in [double]. *)
Definition le_bound (l : Z) (b : bound) : bool :=
  match b with
  | Fin q => l <=? q
  | PInf => true
  | NaN => false
  end.

(** [temp = 0; for (j = 0; j <= i; j++) temp += wcet[j] * ceil((double)t / period[j]);] *)
Definition demand_at (period wcet : list Z) (i : nat) (t : Z) : outcome Z :=
  for_each (seq 0 (S i))
    (fun j temp =>
       wj <- read wcet j ;;
       pj <- read period j ;;
       add_ceil_mul temp t pj wj) 0.

(** [for (int l = 1; l <= floor(...); l++)]: the result is [status].  The
    counter [l] is an [int]; incrementing it past [INT_MAX] is undefined. *)
Fixpoint l_loop (fuel : nat) (period wcet : list Z) (i k : nat) (l : Z)
  : outcome bool :=
  match fuel with
  | O => Timeout
  | S fuel' =>
      pi <- read period i ;;
      pk <- read period k ;;
      if le_bound l (floor_quot pi pk) then
        let t := wrap32 (l * pk) in
        temp <- demand_at period wcet i t ;;
        if temp <=? t then Ret true
        else if l =? INT_MAX then Undef
        else l_loop fuel' period wcet i k (l + 1)
      else Ret false
  end.

(** [for (int k = 0; k <= i; k++) { ...; if (status) break; }] *)
Fixpoint k_loop (fuel : nat) (period wcet : list Z) (i : nat) (ks : list nat)
  : outcome bool :=
  match ks with
  | [] => Ret false
  | k :: ks' =>
      status <- l_loop fuel period wcet i k 1 ;;
      if status then Ret true else k_loop fuel period wcet i ks'
  end.

(** The loop over the tasks: [if (!status) rc = FALSE;], no early return. *)
Fixpoint i_loop (fuel : nat) (period wcet : list Z) (tasks : list nat) (rc : Z)
  : outcome Z :=
  match tasks with
  | [] => Ret rc
  | i :: rest =>
      status <- k_loop fuel period wcet i (seq 0 (S i)) ;;
      i_loop fuel period wcet rest (if status then rc else FALSE)
  end.

Definition scheduling_point_feasibility (fuel : nat) (numServices : nat)
  (period wcet deadline : list Z) : outcome Z :=
  i_loop fuel period wcet (seq 0 numServices) TRUE.

(** ** Doubles *)

Module Binary64.

Definition prec : Z := 53.
Definition emax : Z := 1024.

Definition double : Type := spec_float.

(** Conversion of an integer to [double], rounding to nearest even. *)
Definition of_Z (z : Z) : double := binary_normalize prec emax z 0 false.

Definition add : double -> double -> double := SFadd prec emax.
Definition sub : double -> double -> double := SFsub prec emax.
Definition mul : double -> double -> double := SFmul prec emax.
Definition div : double -> double -> double := SFdiv prec emax.
Definition leb : double -> double -> bool := SFleb.

Definition zero : double := S754_zero false.
Definition one : double := of_Z 1.
Definition two : double := of_Z 2.

(** [ceil] and [floor] of a double, as the integer they denote; [None] for
    an infinity or a NaN. *)
Definition ceil (x : double) : option Z :=
  match x with
  | S754_zero _ => Some 0
  | S754_finite s m e =>
      let v := if s then Z.neg m else Z.pos m in
      Some (if 0 <=? e then v * 2 ^ e else - ((- v) / 2 ^ (- e)))
  | _ => None
  end.

Definition floor (x : double) : option Z :=
  match x with
  | S754_zero _ => Some 0
  | S754_finite s m e =>
      let v := if s then Z.neg m else Z.pos m in
      Some (if 0 <=? e then v * 2 ^ e else v / 2 ^ (- e))
  | _ => None
  end.

End Binary64.

(** The statement [acc += ceil((double)a / p) * w] carried out in [double],
    operation by operation; [add_ceil_mul] is its closed form. *)
Definition add_ceil_mul_double (acc a p w : Z) : outcome Z :=
  match Binary64.ceil (Binary64.div (Binary64.of_Z a) (Binary64.of_Z p)) with
  | Some c =>
      let d := Binary64.add (Binary64.of_Z acc)
                 (Binary64.mul (Binary64.of_Z c) (Binary64.of_Z w)) in
      match Binary64.floor d with
      | Some v => to_u32 v
      | None => Undef
      end
  | None => Undef
  end.

(** ** The utilization tests *)

Section Utilization.

Import Binary64.

(** [pow] of the C library, which is not part of the repository. *)
Variable pow : double -> double -> double.

(** [for (...) sum += (double)wcet[i] / period[i];] starting from [0.0]. *)
Definition utilization_loop (numServices : nat) (period wcet : list Z)
  : outcome double :=
  for_each (seq 0 numServices)
    (fun idx sum =>
       w <- read wcet idx ;;
       p <- read period idx ;;
       Ret (add sum (div (of_Z w) (of_Z p)))) zero.

(** [numServices * (pow(2.0, 1.0 / numServices) - 1.0)] *)
Definition lub_of (numServices : nat) : double :=
  let n := of_Z (Z.of_nat numServices) in
  mul n (sub (pow two (div one n)) one).

Definition rate_monotonic_least_upper_bound (numServices : nat)
  (period wcet deadline : list Z) : outcome Z :=
  utility_sum <- utilization_loop numServices period wcet ;;
  let lub := lub_of numServices in
  Ret (if leb utility_sum lub then TRUE else FALSE).

Definition edf_feasibility (numServices : nat) (period wcet : list Z)
  : outcome Z :=
  totalUtilization <- utilization_loop numServices period wcet ;;
  Ret (if leb totalUtilization one then TRUE else FALSE).

Definition llf_feasibility (numServices : nat) (period wcet : list Z)
  : outcome Z :=
  totalUtilization <- utilization_loop numServices period wcet ;;
  Ret (if leb totalUtilization one then TRUE else FALSE).

End Utilization.

(** ** Task sets and the quantities of the analysis *)

Definition in_u32 (v : Z) : Prop := 0 <= v <= U32_MAX.
Definition positive_u32 (v : Z) : Prop := 0 < v <= U32_MAX.

(** [numServices] tasks with strictly positive periods and WCETs, listed by
    decreasing priority. *)
Record task_set (n : nat) (period wcet : list Z) : Prop := {
  ts_nonempty : (1 <= n)%nat;
  ts_period_length : length period = n;
  ts_wcet_length : length wcet = n;
  ts_period : Forall positive_u32 period;
  ts_wcet : Forall positive_u32 wcet
}.

(** An array of [numServices] deadlines. *)
Record deadlines (n : nat) (deadline : list Z) : Prop := {
  dl_length : length deadline = n;
  dl_range : Forall in_u32 deadline
}.

(** Sum of [f j] over the indices [js]. *)
Definition big_sum (js : list nat) (f : nat -> Z) : Z :=
  fold_right (fun j s => f j + s) 0 js.

(** [a_0], the sum of [wcet_j] for [j = 0..i]. *)
Definition wcet_sum (wcet : list Z) (i : nat) : Z :=
  big_sum (seq 0 (S i)) (fun j => nth j wcet 0).

(** [wcet_i] plus the interference of the tasks [j < i] during [a]. *)
Definition response_step (period wcet : list Z) (i : nat) (a : Z) : Z :=
  nth i wcet 0
  + big_sum (seq 0 i) (fun j => cdiv a (nth j period 0) * nth j wcet 0).

(** The iterates [a_k] of task [i]. *)
Fixpoint a_seq (period wcet : list Z) (i : nat) (k : nat) : Z :=
  match k with
  | O => wcet_sum wcet i
  | S k' => response_step period wcet i (a_seq period wcet i k')
  end.

(** Task [i] reaches the fixed point [R]. *)
Definition fixed_point (period wcet : list Z) (i : nat) (R : Z) : Prop :=
  exists k, a_seq period wcet i (S k) = a_seq period wcet i k
            /\ a_seq period wcet i k = R.




(** The [do ... while] loop of a step function [g] on [U32_T]. *)
Fixpoint loop (g : Z -> Z) (fuel : nat) (a : Z) : outcome Z :=
  match fuel with
  | O => Timeout
  | S fuel' =>
      anext <- to_u32 (g a) ;;
      if anext =? a then Ret a else loop g fuel' anext
  end.

(** Seed and iteration of one task. *)
Definition response_time (fuel : nat) (period wcet : list Z) (i : nat)
  : outcome Z :=
  an0 <- seed wcet i ;; iterate fuel period wcet i an0.

(** Entry [j] of the array exists and is a positive [U32_T]. *)
Definition entry_ok (arr : list Z) (j : nat) : Prop :=
  (j < length arr)%nat /\ positive_u32 (nth j arr 0).

(** The tasks [0..i] are well formed. *)
Definition prefix_ok (period wcet : list Z) (i : nat) : Prop :=
  forall j, (j <= i)%nat -> entry_ok period j /\ entry_ok wcet j.

(** Task [i] passes, or fails, the comparison [an > deadline[i]]. *)
Definition passes (fuel : nat) (period wcet deadline : list Z) (i : nat) : Prop :=
  exists R, response_time fuel period wcet i = Ret R /\ R <= nth i deadline 0.






(** Every iteration of the tasks [0..n-1] reaches a fixed point that is a
    [U32_T] value.  The seed and the iterates are then at most that fixed
    point, so that no sum wraps around and no conversion to [U32_T] is out
    of range in the completion-time test. *)
Definition converges (n : nat) (period wcet : list Z) : Prop :=
  forall i, (i < n)%nat ->
            exists R, fixed_point period wcet i R /\ R <= U32_MAX.

(** Total utilization of the tasks [0..n-1], [wcet_0 / period_0 + ... ],
    summed in index order in [double]. *)
Fixpoint utilization (period wcet : list Z) (n : nat) : Binary64.double :=
  match n with
  | O => Binary64.zero
  | S k =>
      Binary64.add (utilization period wcet k)
        (Binary64.div (Binary64.of_Z (nth k wcet 0))
           (Binary64.of_Z (nth k period 0)))
  end.


(** The task set of [main]: [ex2_period] and [ex2_wcet]. *)
Definition ex2_period : list Z := [2; 5; 7; 13].
Definition ex2_wcet : list Z := [1; 1; 1; 2].

(** The double nearest to the fourth root of 2. *)
Definition root4_of_2 : Binary64.double :=
  S754_finite false 5355712719992597 (-52).

(** ** Quantities of the further properties *)


(** The work the tasks [0..i] release in an interval of length [H], a common
    multiple of their periods: [H / period_j] jobs of [wcet_j] each. *)
Definition hyperperiod_work (period wcet : list Z) (i : nat) (H : Z) : Z :=
  big_sum (seq 0 (S i)) (fun j => nth j wcet 0 * (H / nth j period 0)).

(** A sum that a division by zero has spoilt: a NaN or [+inf]. *)
Definition spoilt (x : Binary64.double) : Prop :=
  x = S754_nan \/ x = S754_infinity false.

(** ** The program *)


(** * The firmware of the robot ([freertos_demo.c])

    Two parts of the FreeRTOS program that runs on the TIVA board: the
    sequencer, and the execution records that the services keep. *)

Module Firmware.

(** ** The sequencer

    [Timer0AInterruptHandler], the handler of the 100 Hz timer that releases
    the four services.  The handler is a transition on the globals it
    updates; its calls to the timer driver, to FreeRTOS, to the UART and to
    [MotorStop] are recorded in the order it makes them, without the newline
    that ends a message.  What [xSemaphoreGiveFromISR] returns is decided by
    FreeRTOS and is an argument; the flag it sets for [portYIELD_FROM_ISR]
    is not tracked. *)

Inductive semaphore : Type :=
| semaphore1
| semaphore2
| semaphore3
| semaphore4.

Inductive call : Type :=
| TimerIntClear
| xSemaphoreGiveFromISR (s : semaphore)
| UARTprintf (format : String.string)
| MotorStop
| portYIELD_FROM_ISR.

(** [int seqCnt] and the flags [abortS1 .. abortS4]. *)
Record sequencer : Type := {
  seqCnt : Z;
  abortS1 : bool;
  abortS2 : bool;
  abortS3 : bool;
  abortS4 : bool
}.

(** The initialisers: [seqCnt = 0], the flags [false]. *)
Definition startup : sequencer :=
  {| seqCnt := 0; abortS1 := false; abortS2 := false; abortS3 := false;
     abortS4 := false |}.

(** [if (xSemaphoreGiveFromISR(s, ...) != pdTRUE) UARTprintf(msg);] where
    [pdTRUE s] tells whether this call returns [pdTRUE]. *)
Definition give_checked (pdTRUE : semaphore -> bool) (s : semaphore)
  (msg : String.string) : list call :=
  xSemaphoreGiveFromISR s :: (if pdTRUE s then [] else [UARTprintf msg]).

(** One timer interrupt.  [seqCnt++] on an [int] is undefined at [INT_MAX];
    [%] is the remainder of C, [Z.rem]. *)
Definition Timer0AInterruptHandler (pdTRUE : semaphore -> bool) (g : sequencer)
  : outcome (sequencer * list call) :=
  if seqCnt g =? INT_MAX then Undef
  else
    let seqCnt' := seqCnt g + 1 in
    if 1000 <=? seqCnt' then
      Ret ({| seqCnt := seqCnt'; abortS1 := true; abortS2 := true;
              abortS3 := true; abortS4 := true |},
           [TimerIntClear;
            xSemaphoreGiveFromISR semaphore1;
            xSemaphoreGiveFromISR semaphore2;
            xSemaphoreGiveFromISR semaphore3;
            xSemaphoreGiveFromISR semaphore4;
            MotorStop;
            portYIELD_FROM_ISR])
    else
      Ret ({| seqCnt := seqCnt'; abortS1 := abortS1 g; abortS2 := abortS2 g;
              abortS3 := abortS3 g; abortS4 := abortS4 g |},
           [TimerIntClear]
           ++ (if Z.rem seqCnt' 20 =? 0
               then give_checked pdTRUE semaphore1
                      "Semaphore give for Service 1 failed!"%string
               else [])
           ++ (if Z.rem seqCnt' 1 =? 0
               then give_checked pdTRUE semaphore2
                      "Semaphore give for Service 2 failed!"%string
               else [])
           ++ (if Z.rem seqCnt' 1 =? 0
               then give_checked pdTRUE semaphore3
                      "Semaphore give for Service 3 failed!"%string
               else [])
           ++ (if Z.rem seqCnt' 25 =? 0
               then give_checked pdTRUE semaphore4
                      "Semaphore give for Service 4 failed!"%string
               else [])
           ++ [portYIELD_FROM_ISR]).

(** A run of timer interrupts, one answer of FreeRTOS per interrupt. *)
Fixpoint interrupts (answers : list (semaphore -> bool)) (g : sequencer)
  : outcome (sequencer * list call) :=
  match answers with
  | [] => Ret (g, [])
  | pdTRUE :: rest =>
      r1 <- Timer0AInterruptHandler pdTRUE g ;;
      r2 <- interrupts rest (fst r1) ;;
      Ret (fst r2, snd r1 ++ snd r2)
  end.

Definition is_give (s : semaphore) (c : call) : bool :=
  match c, s with
  | xSemaphoreGiveFromISR semaphore1, semaphore1 => true
  | xSemaphoreGiveFromISR semaphore2, semaphore2 => true
  | xSemaphoreGiveFromISR semaphore3, semaphore3 => true
  | xSemaphoreGiveFromISR semaphore4, semaphore4 => true
  | _, _ => false
  end.

(** How often the semaphore [s] is given in a run. *)
Definition releases (s : semaphore) (calls : list call) : Z :=
  Z.of_nat (length (filter (is_give s) calls)).

(** How often the handler calls [MotorStop] in a run. *)
Definition motor_stops (calls : list call) : Z :=
  Z.of_nat (length (filter (fun c => match c with MotorStop => true
                                             | _ => false end) calls)).

(** ** Execution records of the services

    The four services keep the ticks at which each of
    their executions starts and ends in a [ServiceData], and the largest
    difference seen so far in its field [wcet]. *)

(** A block of [TickType_t] obtained from [pvPortMalloc]: [None] is the null
    pointer, [Some arr] an array holding whatever the heap held. *)
Definition block : Type := option (list Z).

Record ServiceData : Type := {
  startTime : block;
  endTime : block;
  serviceCount : Z;
  wcet : Z
}.

(** [InitServiceData]: [startBlock] and [endBlock] are what the two calls of
    [pvPortMalloc(maxExecutions * sizeof(TickType_t))] return. *)
Definition InitServiceData (startBlock endBlock : block) : ServiceData :=
  {| startTime := startBlock; endTime := endBlock;
     serviceCount := 0; wcet := 0 |}.

(** [b[i] = v]: defined only inside the array. *)
Definition store (b : block) (i v : Z) : outcome block :=
  match b with
  | Some arr =>
      if (0 <=? i) && (i <? Z.of_nat (length arr))
      then Ret (Some (firstn (Z.to_nat i) arr
                        ++ v :: skipn (S (Z.to_nat i)) arr))
      else Undef
  | None => Undef
  end.

(** [b[i]] *)
Definition load (b : block) (i : Z) : outcome Z :=
  match b with
  | Some arr => if 0 <=? i then read arr (Z.to_nat i) else Undef
  | None => Undef
  end.

(** One execution of a service, between a successful [xSemaphoreTake] and
    the end of the loop body, as far as its [ServiceData] goes:
    [startTime[serviceCount] = xTaskGetTickCount(); ...;
     endTime[serviceCount] = xTaskGetTickCount(); serviceCount++;
     executionTime = endTime[serviceCount - 1] - startTime[serviceCount - 1];
     if (executionTime > wcet) wcet = executionTime;]
    [start] and [finish] are the two tick counts read; [serviceCount] is a
    [uint32_t], and [TickType_t] an unsigned type of [tick_modulus]
    values. *)
Definition service_execution (tick_modulus : Z) (start finish : Z)
  (sd : ServiceData) : outcome ServiceData :=
  st <- store (startTime sd) (serviceCount sd) start ;;
  en <- store (endTime sd) (serviceCount sd) finish ;;
  let count := wrap32 (serviceCount sd + 1) in
  e <- load en (wrap32 (count - 1)) ;;
  s <- load st (wrap32 (count - 1)) ;;
  let executionTime := (e - s) mod tick_modulus in
  Ret {| startTime := st; endTime := en; serviceCount := count;
         wcet := if wcet sd <? executionTime then executionTime
                 else wcet sd |}.

(** The executions of a service in turn, each with its two tick counts. *)
Fixpoint service_executions (tick_modulus : Z) (runs : list (Z * Z))
  (sd : ServiceData) : outcome ServiceData :=
  match runs with
  | [] => Ret sd
  | (start, finish) :: rest =>
      sd' <- service_execution tick_modulus start finish sd ;;
      service_executions tick_modulus rest sd'
  end.

(** The largest execution time among [runs], in ticks. *)
Definition longest (tick_modulus : Z) (runs : list (Z * Z)) : Z :=
  fold_left (fun m r => Z.max m ((snd r - fst r) mod tick_modulus)) runs 0.

(** The records after the executions [done]. *)
Definition recorded (M : Z) (L : nat) (done : list (Z * Z)) (sd : ServiceData)
  : Prop :=
  serviceCount sd = Z.of_nat (length done)
  /\ wcet sd = longest M done
  /\ (exists st, startTime sd = Some st /\ length st = L
                 /\ firstn (length done) st = map fst done)
  /\ (exists en, endTime sd = Some en /\ length en = L
                 /\ firstn (length done) en = map snd done).

End Firmware.

(** * Properties *)

(** ** Outcomes *)

Lemma bind_Ret {A B : Type} (c : outcome A) (k : A -> outcome B) (b : B) :
  bind c k = Ret b -> exists a, c = Ret a /\ k a = Ret b.
Proof.
  destruct c as [a| |]; simpl; intros H; try discriminate.
  exists a. split; [reflexivity | exact H].
Qed.

Lemma to_u32_Ret (v : Z) : in_u32 v -> to_u32 v = Ret v.
Proof.
  unfold in_u32, to_u32. intros [H0 H1].
  apply Z.leb_le in H0. apply Z.leb_le in H1.
  rewrite H0, H1. reflexivity.
Qed.

Lemma to_u32_Undef (v : Z) : U32_MAX < v -> to_u32 v = Undef.
Proof.
  unfold to_u32. intros H.
  apply Z.leb_gt in H. rewrite H, andb_false_r. reflexivity.
Qed.

Lemma to_u32_inv (v r : Z) : to_u32 v = Ret r -> r = v /\ in_u32 v.
Proof.
  unfold to_u32, in_u32.
  destruct (0 <=? v) eqn:H0; destruct (v <=? U32_MAX) eqn:H1; simpl;
    intros H; try discriminate.
  apply Z.leb_le in H0. apply Z.leb_le in H1.
  inversion H. split; [reflexivity | lia].
Qed.


Lemma read_nth (arr : list Z) (j : nat) :
  (j < length arr)%nat -> read arr j = Ret (nth j arr 0).
Proof.
  intros H. unfold read.
  rewrite (nth_error_nth' arr 0 H). reflexivity.
Qed.


Lemma wrap32_range (v : Z) : in_u32 (wrap32 v).
Proof.
  unfold in_u32, wrap32.
  pose proof (Z.mod_pos_bound v (U32_MAX + 1)). unfold U32_MAX in *. lia.
Qed.

Lemma wrap32_small (v : Z) : in_u32 v -> wrap32 v = v.
Proof.
  unfold in_u32, wrap32. intros H. apply Z.mod_small. lia.
Qed.


(** ** Ceilings *)

Lemma cdiv_le_iff (a p m : Z) : 0 < p -> cdiv a p <= m <-> a <= m * p.
Proof.
  intros Hp. unfold cdiv. split; intros H.
  - pose proof (Z.mod_pos_bound (a + p - 1) p Hp).
    pose proof (Z.div_mod (a + p - 1) p). nia.
  - assert ((a + p - 1) / p < m + 1); [|lia].
    apply Z.div_lt_upper_bound; lia.
Qed.

Lemma cdiv_ge (a p : Z) : 0 < p -> a <= cdiv a p * p.
Proof. intros Hp. apply cdiv_le_iff; [exact Hp | lia]. Qed.

Lemma cdiv_mono (a b p : Z) : 0 < p -> a <= b -> cdiv a p <= cdiv b p.
Proof.
  intros Hp Hab. apply cdiv_le_iff; [exact Hp|].
  pose proof (cdiv_ge b p Hp). lia.
Qed.

Lemma cdiv_nonneg (a p : Z) : 0 < p -> 0 <= a -> 0 <= cdiv a p.
Proof.
  intros Hp Ha. unfold cdiv. apply Z.div_pos; lia.
Qed.

Lemma cdiv_pos (a p : Z) : 0 < p -> 0 < a -> 1 <= cdiv a p.
Proof.
  intros Hp Ha.
  destruct (Z_le_gt_dec (cdiv a p) 0) as [H|H]; [|lia].
  apply cdiv_le_iff in H; lia.
Qed.

Lemma cdiv_zero (p : Z) : 0 < p -> cdiv 0 p = 0.
Proof.
  intros Hp. unfold cdiv. apply Z.div_small. lia.
Qed.

Lemma cdiv_one (a p : Z) : 0 < a <= p -> cdiv a p = 1.
Proof.
  intros [Ha Hp].
  assert (cdiv a p <= 1) by (apply cdiv_le_iff; lia).
  pose proof (cdiv_pos a p). lia.
Qed.


(** ** Sums and accumulating loops *)

Lemma big_sum_nonneg (js : list nat) (f : nat -> Z) :
  (forall j, In j js -> 0 <= f j) -> 0 <= big_sum js f.
Proof.
  induction js as [|j js IH]; simpl; intros H; [lia|].
  pose proof (H j (or_introl eq_refl)).
  assert (0 <= big_sum js f) by (apply IH; intros; apply H; right; assumption).
  lia.
Qed.

Lemma big_sum_le (js : list nat) (f g : nat -> Z) :
  (forall j, In j js -> f j <= g j) -> big_sum js f <= big_sum js g.
Proof.
  induction js as [|j js IH]; simpl; intros H; [lia|].
  pose proof (H j (or_introl eq_refl)).
  assert (big_sum js f <= big_sum js g)
    by (apply IH; intros; apply H; right; assumption).
  lia.
Qed.

Lemma big_sum_ext (js : list nat) (f g : nat -> Z) :
  (forall j, In j js -> f j = g j) -> big_sum js f = big_sum js g.
Proof.
  intros H. apply Z.le_antisymm; apply big_sum_le; intros j Hj;
    rewrite (H j Hj); lia.
Qed.

Lemma big_sum_app (js ks : list nat) (f : nat -> Z) :
  big_sum (js ++ ks) f = big_sum js f + big_sum ks f.
Proof.
  induction js as [|j js IH]; simpl; [reflexivity|]. rewrite IH. lia.
Qed.

Lemma big_sum_snoc (n : nat) (f : nat -> Z) :
  big_sum (seq 0 (S n)) f = big_sum (seq 0 n) f + f n.
Proof.
  rewrite seq_S, big_sum_app. simpl. lia.
Qed.


(** A loop whose body is [acc += d] with [d >= 0] converted from [double]:
    it yields the exact sum when this fits, and is undefined otherwise. *)
Lemma for_each_add (js : list nat) (body : nat -> Z -> outcome Z)
  (f : nat -> Z) (acc : Z) :
  (forall j x, In j js -> body j x = to_u32 (x + f j)) ->
  (forall j, In j js -> 0 <= f j) ->
  in_u32 acc ->
  for_each js body acc = to_u32 (acc + big_sum js f).
Proof.
  revert acc. induction js as [|j js IH]; simpl; intros acc Hb Hf Hacc.
  - rewrite Z.add_0_r. symmetry. apply to_u32_Ret. exact Hacc.
  - rewrite (Hb j acc (or_introl eq_refl)).
    pose proof (Hf j (or_introl eq_refl)) as Hj.
    assert (0 <= big_sum js f) as Hrest
      by (apply big_sum_nonneg; intros; apply Hf; right; assumption).
    unfold in_u32 in Hacc.
    destruct (Z_le_gt_dec (acc + f j) U32_MAX) as [Hle|Hgt].
    + rewrite to_u32_Ret by (unfold in_u32; lia). simpl.
      rewrite IH.
      * f_equal. lia.
      * intros; apply Hb; right; assumption.
      * intros; apply Hf; right; assumption.
      * unfold in_u32; lia.
    + rewrite to_u32_Undef by lia. simpl.
      symmetry. apply to_u32_Undef. lia.
Qed.

(** A loop whose body is the unsigned addition [acc += f j]. *)
Lemma for_each_wrap (js : list nat) (body : nat -> Z -> outcome Z)
  (f : nat -> Z) (acc : Z) :
  (forall j x, In j js -> body j x = Ret (wrap32 (x + f j))) ->
  in_u32 acc ->
  for_each js body acc = Ret (wrap32 (acc + big_sum js f)).
Proof.
  revert acc. induction js as [|j js IH]; simpl; intros acc Hb Hacc.
  - rewrite Z.add_0_r. unfold wrap32.
    rewrite Z.mod_small; [reflexivity|]. unfold in_u32 in Hacc. lia.
  - rewrite (Hb j acc (or_introl eq_refl)). simpl.
    rewrite IH.
    + f_equal. unfold wrap32.
      rewrite Z.add_mod_idemp_l by (unfold U32_MAX; lia).
      f_equal. lia.
    + intros; apply Hb; right; assumption.
    + unfold wrap32, in_u32.
      pose proof (Z.mod_pos_bound (acc + f j) (U32_MAX + 1)).
      unfold U32_MAX in *. lia.
Qed.

(** ** Well-formed array entries *)

Lemma Forall_entry_ok (arr : list Z) (j : nat) :
  Forall positive_u32 arr -> (j < length arr)%nat -> entry_ok arr j.
Proof.
  intros HF Hj. split; [exact Hj|].
  rewrite Forall_forall in HF. apply HF. apply nth_In. exact Hj.
Qed.

Lemma task_set_entries (n : nat) (period wcet : list Z) (j : nat) :
  task_set n period wcet -> (j < n)%nat ->
  entry_ok period j /\ entry_ok wcet j.
Proof.
  intros [_ Hlp Hlw Hp Hw] Hj.
  split; apply Forall_entry_ok; try assumption; lia.
Qed.

Lemma entry_ok_read (arr : list Z) (j : nat) :
  entry_ok arr j -> read arr j = Ret (nth j arr 0).
Proof. intros [H _]. apply read_nth. exact H. Qed.

Lemma task_set_prefix (n : nat) (period wcet : list Z) (i : nat) :
  task_set n period wcet -> (i < n)%nat -> prefix_ok period wcet i.
Proof.
  intros H Hi j Hj. apply (task_set_entries n); [exact H | lia].
Qed.


(** ** The [do ... while] loop of a monotone step function *)

Section Loop.

Variable g : Z -> Z.
Hypothesis g_nonneg : forall a, 0 <= a -> 0 <= g a.
Hypothesis g_mono : forall a b, 0 <= a <= b -> g a <= g b.

Lemma loop_S (fuel : nat) (a : Z) :
  loop g (S fuel) a
  = (anext <- to_u32 (g a) ;;
     if anext =? a then Ret a else loop g fuel anext).
Proof. reflexivity. Qed.

Lemma loop_fuel (fuel : nat) :
  forall a m, loop g fuel a <> Timeout -> loop g (fuel + m) a = loop g fuel a.
Proof.
  induction fuel as [|fuel IH]; intros a m H; simpl in *; [congruence|].
  destruct (to_u32 (g a)) as [x| |]; simpl in *; try reflexivity.
  destruct (x =? a); [reflexivity|]. apply IH. exact H.
Qed.

Lemma loop_fuel_le (fuel fuel' : nat) (a : Z) :
  (fuel <= fuel')%nat -> loop g fuel a <> Timeout ->
  loop g fuel' a = loop g fuel a.
Proof.
  intros Hle H. replace fuel' with (fuel + (fuel' - fuel))%nat by lia.
  apply loop_fuel. exact H.
Qed.

(** The loop stops only at a fixed point of the orbit of its start. *)
Lemma loop_sound (fuel : nat) :
  forall a R, loop g fuel a = Ret R ->
              exists k, (k < fuel)%nat /\ Nat.iter k g a = R /\ g R = R.
Proof.
  induction fuel as [|fuel IH]; intros a R H; simpl in H; [discriminate|].
  apply bind_Ret in H. destruct H as [x [Hx H]].
  apply to_u32_inv in Hx. destruct Hx as [-> _].
  destruct (g a =? a) eqn:E.
  - apply Z.eqb_eq in E. inversion H; subst R.
    exists 0%nat. repeat split; [lia | exact E].
  - destruct (IH _ _ H) as [k [Hk [Hit Hfix]]].
    exists (S k). repeat split; [lia | | exact Hfix].
    rewrite Nat.iter_succ_r. exact Hit.
Qed.

Lemma loop_first_step (fuel : nat) (a R : Z) :
  loop g fuel a = Ret R -> in_u32 (g a).
Proof.
  destruct fuel as [|fuel]; simpl; intros H; [discriminate|].
  apply bind_Ret in H. destruct H as [x [Hx _]].
  apply to_u32_inv in Hx. apply Hx.
Qed.

Lemma loop_range (fuel : nat) :
  forall a R, in_u32 a -> loop g fuel a = Ret R -> in_u32 R.
Proof.
  induction fuel as [|fuel IH]; intros a R Ha H; [discriminate|].
  rewrite loop_S in H. apply bind_Ret in H. destruct H as [x [Hx H]].
  apply to_u32_inv in Hx. destruct Hx as [-> Hx].
  destruct (g a =? a); [inversion H; subst; exact Ha|].
  apply (IH (g a)); assumption.
Qed.

Lemma orbit_step (k : nat) (a : Z) :
  0 <= a <= g a -> 0 <= Nat.iter k g a <= Nat.iter (S k) g a.
Proof.
  intros Ha. induction k as [|k IH]; simpl in *; [exact Ha|].
  split; [lia|]. apply g_mono. exact IH.
Qed.

Lemma orbit_le (k k' : nat) (a : Z) :
  0 <= a <= g a -> (k <= k')%nat -> Nat.iter k g a <= Nat.iter k' g a.
Proof.
  intros Ha Hk. induction Hk as [|k' Hk IH]; [lia|].
  pose proof (orbit_step k' a Ha). lia.
Qed.

Lemma orbit_fixed (k m : nat) (a : Z) :
  Nat.iter (S k) g a = Nat.iter k g a ->
  Nat.iter (k + m) g a = Nat.iter k g a.
Proof.
  intros H. induction m as [|m IH].
  - rewrite Nat.add_0_r. reflexivity.
  - rewrite Nat.add_succ_r. simpl. rewrite IH. exact H.
Qed.


(** The loop reaches every fixed point of the orbit that fits [U32_T]. *)
Lemma loop_complete (k : nat) :
  forall a, 0 <= a <= g a ->
            Nat.iter (S k) g a = Nat.iter k g a ->
            Nat.iter k g a <= U32_MAX ->
            loop g (S k) a = Ret (Nat.iter k g a).
Proof.
  induction k as [|k IH]; intros a Ha Hfix Hmax.
  - simpl in *. rewrite Hfix.
    rewrite to_u32_Ret by (unfold in_u32; lia). simpl.
    rewrite Z.eqb_refl. reflexivity.
  - assert (g a <= Nat.iter (S k) g a) as Hga
      by (apply (orbit_le 1 (S k) a Ha); lia).
    rewrite loop_S.
    rewrite to_u32_Ret by (unfold in_u32; lia). cbn [bind].
    destruct (g a =? a) eqn:E.
    + apply Z.eqb_eq in E. f_equal.
      symmetry. apply (orbit_fixed 0 (S k) a). exact E.
    + rewrite !Nat.iter_succ_r in Hfix.
      rewrite (Nat.iter_succ_r k) in Hmax.
      rewrite IH; [rewrite (Nat.iter_succ_r k); reflexivity | | | ].
      * split; [lia|]. apply g_mono. lia.
      * rewrite Nat.iter_succ_r. exact Hfix.
      * exact Hmax.
Qed.

(** The loop is over after at most [U32_MAX + 1 - a] rounds: its variable
    grows with every round that does not leave it. *)
Lemma loop_bounded (fuel : nat) :
  forall a, 0 <= a <= g a -> a <= U32_MAX ->
            U32_MAX - a < Z.of_nat fuel ->
            loop g fuel a <> Timeout.
Proof.
  induction fuel as [|fuel IH]; intros a Ha Hmax Hfuel; [lia|].
  - rewrite loop_S.
    destruct (Z_le_gt_dec (g a) U32_MAX) as [Hle|Hgt].
    + rewrite to_u32_Ret by (unfold in_u32; lia). cbn [bind].
      destruct (g a =? a) eqn:E; [discriminate|].
      apply Z.eqb_neq in E. apply IH.
      * split; [lia|]. apply g_mono. lia.
      * exact Hle.
      * lia.
    + rewrite to_u32_Undef by lia. discriminate.
Qed.

End Loop.

(** ** The response-time recurrence *)

Section Recurrence.

Variables period wcet : list Z.
Variable i : nat.
Hypothesis Hok : prefix_ok period wcet i.

Let g : Z -> Z := response_step period wcet i.

Lemma period_pos (j : nat) : (j <= i)%nat -> 0 < nth j period 0 <= U32_MAX.
Proof. intros Hj. apply (Hok j Hj). Qed.

Lemma wcet_pos (j : nat) : (j <= i)%nat -> 0 < nth j wcet 0 <= U32_MAX.
Proof. intros Hj. apply (Hok j Hj). Qed.

Lemma wcet_sum_split :
  wcet_sum wcet i = nth i wcet 0 + big_sum (seq 0 i) (fun j => nth j wcet 0).
Proof. unfold wcet_sum. rewrite big_sum_snoc. lia. Qed.

Lemma wcet_sum_pos : 0 < wcet_sum wcet i.
Proof.
  rewrite wcet_sum_split.
  pose proof (wcet_pos i (Nat.le_refl i)).
  assert (0 <= big_sum (seq 0 i) (fun j => nth j wcet 0)); [|lia].
  apply big_sum_nonneg. intros j Hj. apply in_seq in Hj.
  pose proof (wcet_pos j). lia.
Qed.

Lemma response_step_nonneg (a : Z) : 0 <= a -> 0 <= g a.
Proof.
  intros Ha. unfold g, response_step.
  pose proof (wcet_pos i (Nat.le_refl i)).
  assert (0 <= big_sum (seq 0 i)
                 (fun j => cdiv a (nth j period 0) * nth j wcet 0)); [|lia].
  apply big_sum_nonneg. intros j Hj. apply in_seq in Hj.
  pose proof (wcet_pos j). pose proof (period_pos j).
  pose proof (cdiv_nonneg a (nth j period 0)). nia.
Qed.

Lemma response_step_mono (a b : Z) : 0 <= a <= b -> g a <= g b.
Proof.
  intros Hab. unfold g, response_step.
  apply Z.add_le_mono_l. apply big_sum_le. intros j Hj. apply in_seq in Hj.
  pose proof (wcet_pos j). pose proof (period_pos j).
  pose proof (cdiv_mono a b (nth j period 0)). nia.
Qed.

(** From a positive instant on, a round asks for every task at least once. *)
Lemma response_step_ge_sum (a : Z) : 0 < a -> wcet_sum wcet i <= g a.
Proof.
  intros Ha. rewrite wcet_sum_split. unfold g, response_step.
  apply Z.add_le_mono_l. apply big_sum_le. intros j Hj. apply in_seq in Hj.
  pose proof (wcet_pos j). pose proof (period_pos j).
  pose proof (cdiv_pos a (nth j period 0)). nia.
Qed.

Lemma response_step_zero : g 0 = nth i wcet 0.
Proof.
  unfold g, response_step.
  rewrite (big_sum_ext _ _ (fun _ => 0)).
  - assert (forall js, big_sum js (fun _ : nat => 0) = 0) as H0
      by (induction js as [|? ? IH]; simpl; [reflexivity | rewrite IH; reflexivity]).
    rewrite H0. lia.
  - intros j Hj. apply in_seq in Hj.
    rewrite cdiv_zero; [reflexivity|]. pose proof (period_pos j). lia.
Qed.

Lemma a_seq_iter (k : nat) :
  a_seq period wcet i k = Nat.iter k g (wcet_sum wcet i).
Proof.
  induction k as [|k IH]; simpl; [reflexivity|]. rewrite IH. reflexivity.
Qed.

Lemma a_seq_start : 0 <= wcet_sum wcet i <= g (wcet_sum wcet i).
Proof.
  pose proof wcet_sum_pos.
  pose proof (response_step_ge_sum (wcet_sum wcet i)). lia.
Qed.

(** The iterates never decrease. *)
Lemma a_seq_mono (k k' : nat) :
  (k <= k')%nat -> a_seq period wcet i k <= a_seq period wcet i k'.
Proof.
  intros Hk. rewrite !a_seq_iter.
  apply orbit_le; [exact response_step_mono | exact a_seq_start | exact Hk].
Qed.


(** The loops of the code compute the recurrence. *)
Lemma seed_eq : seed wcet i = Ret (wrap32 (wcet_sum wcet i)).
Proof.
  unfold seed, wcet_sum.
  rewrite (for_each_wrap _ _ (fun j => nth j wcet 0));
    [reflexivity | | unfold in_u32, U32_MAX; lia].
  intros j x Hj. apply in_seq in Hj.
  rewrite entry_ok_read by (apply Hok; lia). reflexivity.
Qed.

Lemma next_iterate_eq (a : Z) :
  0 <= a -> next_iterate period wcet i a = to_u32 (g a).
Proof.
  intros Ha. unfold next_iterate, g, response_step.
  rewrite entry_ok_read by (apply Hok; lia). cbn [bind].
  apply for_each_add.
  - intros j x Hj. apply in_seq in Hj.
    rewrite !entry_ok_read by (apply Hok; lia). cbn [bind].
    unfold add_ceil_mul.
    pose proof (period_pos j).
    destruct (nth j period 0 =? 0) eqn:E; [apply Z.eqb_eq in E; lia|].
    reflexivity.
  - intros j Hj. apply in_seq in Hj.
    pose proof (wcet_pos j). pose proof (period_pos j).
    pose proof (cdiv_nonneg a (nth j period 0)). nia.
  - pose proof (wcet_pos i). unfold in_u32. lia.
Qed.

Lemma iterate_loop (fuel : nat) :
  forall a, 0 <= a -> iterate fuel period wcet i a = loop g fuel a.
Proof.
  induction fuel as [|fuel IH]; intros a Ha; [reflexivity|].
  cbn [iterate loop]. rewrite next_iterate_eq by exact Ha.
  destruct (to_u32 (g a)) as [x| |] eqn:E; cbn [bind]; try reflexivity.
  destruct (x =? a); [reflexivity|].
  apply IH. apply to_u32_inv in E. destruct E as [-> E]. apply E.
Qed.

Lemma response_time_loop (fuel : nat) :
  response_time fuel period wcet i = loop g fuel (wrap32 (wcet_sum wcet i)).
Proof.
  unfold response_time. rewrite seed_eq. cbn [bind].
  apply iterate_loop. apply wrap32_range.
Qed.

(** When the loop returns, the seed did not wrap around. *)
Lemma seed_fits (fuel : nat) (R : Z) :
  response_time fuel period wcet i = Ret R -> wcet_sum wcet i <= U32_MAX.
Proof.
  rewrite response_time_loop. intros H.
  pose proof (wrap32_range (wcet_sum wcet i)) as Hw. unfold in_u32 in Hw.
  pose proof (loop_first_step g fuel _ _ H) as H1. unfold in_u32 in H1.
  destruct (Z.eq_dec (wrap32 (wcet_sum wcet i)) 0) as [E|E].
  - rewrite E in H. destruct fuel as [|fuel]; [discriminate|].
    rewrite loop_S in H. rewrite response_step_zero in H.
    pose proof (wcet_pos i (Nat.le_refl i)).
    rewrite to_u32_Ret in H by (unfold in_u32; lia). cbn [bind] in H.
    destruct (nth i wcet 0 =? 0) eqn:E0; [apply Z.eqb_eq in E0; lia|].
    pose proof (loop_first_step g fuel _ _ H) as H2. unfold in_u32 in H2.
    pose proof (response_step_ge_sum (nth i wcet 0)). lia.
  - pose proof (response_step_ge_sum (wrap32 (wcet_sum wcet i))). lia.
Qed.

Lemma response_time_sound (fuel : nat) (R : Z) :
  response_time fuel period wcet i = Ret R ->
  fixed_point period wcet i R /\ in_u32 R.
Proof.
  intros H. pose proof (seed_fits fuel R H) as Hfit.
  pose proof wcet_sum_pos as Hpos.
  rewrite response_time_loop in H.
  split.
  - rewrite wrap32_small in H by (unfold in_u32; lia).
    destruct (loop_sound g fuel _ _ H) as [k [_ [Hit Hfix]]].
    exists k. rewrite !a_seq_iter.
    change (Nat.iter (S k) g (wcet_sum wcet i))
      with (g (Nat.iter k g (wcet_sum wcet i))).
    rewrite Hit. split; [exact Hfix | reflexivity].
  - apply (loop_range g fuel _ _ (wrap32_range _) H).
Qed.

Lemma response_time_complete (k : nat) :
  a_seq period wcet i (S k) = a_seq period wcet i k ->
  a_seq period wcet i k <= U32_MAX ->
  response_time (S k) period wcet i = Ret (a_seq period wcet i k).
Proof.
  intros Hfix Hmax. rewrite response_time_loop.
  pose proof (a_seq_mono 0 k (Nat.le_0_l k)) as H0. cbn [a_seq] in H0.
  pose proof wcet_sum_pos.
  rewrite wrap32_small by (unfold in_u32; lia).
  rewrite !a_seq_iter in *.
  apply loop_complete;
    [exact response_step_mono | exact a_seq_start | exact Hfix | exact Hmax].
Qed.

Lemma response_time_fuel (fuel fuel' : nat) :
  (fuel <= fuel')%nat -> response_time fuel period wcet i <> Timeout ->
  response_time fuel' period wcet i = response_time fuel period wcet i.
Proof.
  rewrite !response_time_loop. apply loop_fuel_le.
Qed.

End Recurrence.

(** ** The loop over the tasks of the completion-time test *)

Lemma completion_loop_cons (fuel : nat) (period wcet deadline : list Z)
  (i : nat) (rest : list nat) :
  completion_loop fuel period wcet deadline (i :: rest)
  = (an <- response_time fuel period wcet i ;;
     d <- read deadline i ;;
     if d <? an then Ret FALSE
     else completion_loop fuel period wcet deadline rest).
Proof.
  cbn [completion_loop]. unfold response_time.
  destruct (seed wcet i); reflexivity.
Qed.

Lemma completion_loop_verdict (fuel : nat) (period wcet deadline : list Z)
  (tasks : list nat) (v : Z) :
  completion_loop fuel period wcet deadline tasks = Ret v ->
  v = TRUE \/ v = FALSE.
Proof.
  induction tasks as [|i rest IH].
  - cbn. intros H. inversion H. left. reflexivity.
  - rewrite completion_loop_cons. intros H.
    apply bind_Ret in H. destruct H as [an [_ H]].
    apply bind_Ret in H. destruct H as [d [_ H]].
    destruct (d <? an); [inversion H; right; reflexivity | exact (IH H)].
Qed.

Lemma completion_loop_TRUE (fuel : nat) (period wcet deadline : list Z)
  (tasks : list nat) :
  (forall i, In i tasks -> (i < length deadline)%nat) ->
  completion_loop fuel period wcet deadline tasks = Ret TRUE <->
  forall i, In i tasks -> passes fuel period wcet deadline i.
Proof.
  induction tasks as [|i rest IH]; intros Hlen.
  - cbn. split; [intros _ i [] | reflexivity].
  - rewrite completion_loop_cons.
    rewrite (read_nth deadline i) by (apply Hlen; left; reflexivity).
    assert (forall i, In i rest -> (i < length deadline)%nat) as Hlen'
      by (intros; apply Hlen; right; assumption).
    split.
    + intros H. apply bind_Ret in H. destruct H as [an [Han H]].
      cbn [bind] in H.
      destruct (nth i deadline 0 <? an) eqn:E; [discriminate|].
      apply Z.ltb_ge in E.
      intros i' [<-|Hi'].
      * exists an. split; assumption.
      * apply (proj1 (IH Hlen') H). exact Hi'.
    + intros H. destruct (H i (or_introl eq_refl)) as [R [HR Hle]].
      rewrite HR. cbn [bind].
      apply Z.ltb_ge in Hle. rewrite Hle.
      apply (IH Hlen'). intros; apply H; right; assumption.
Qed.





(** One amount of fuel serves finitely many tasks. *)
Lemma common_fuel (Q : nat -> nat -> Prop) (n : nat) :
  (forall i fuel fuel', (i < n)%nat -> (fuel <= fuel')%nat ->
                        Q fuel i -> Q fuel' i) ->
  (forall i, (i < n)%nat -> exists fuel, Q fuel i) ->
  exists fuel, forall i, (i < n)%nat -> Q fuel i.
Proof.
  induction n as [|n IH]; intros Hmono Hex.
  - exists 0%nat. intros i Hi. lia.
  - destruct IH as [f1 H1].
    + intros i fuel fuel' Hi. apply Hmono. lia.
    + intros i Hi. apply Hex. lia.
    + destruct (Hex n) as [f2 H2]; [lia|].
      exists (Nat.max f1 f2). intros i Hi.
      destruct (Nat.eq_dec i n) as [->|Hne].
      * apply (Hmono n f2); [lia | lia | exact H2].
      * apply (Hmono i f1); [lia | lia | apply H1; lia].
Qed.

Lemma completion_fuel (fuel fuel' n : nat) (period wcet deadline : list Z)
  (v : Z) :
  task_set n period wcet -> deadlines n deadline -> (fuel <= fuel')%nat ->
  completion_time_feasibility fuel n period wcet deadline = Ret v ->
  completion_time_feasibility fuel' n period wcet deadline = Ret v.
Proof.
  intros Hts Hd Hle. unfold completion_time_feasibility.
  assert (forall i, In i (seq 0 n) -> prefix_ok period wcet i) as Hok
    by (intros i Hi; apply in_seq in Hi; apply (task_set_prefix n); [assumption | lia]).
  revert Hok. generalize (seq 0 n) as tasks.
  induction tasks as [|i rest IH]; intros Hok H; [exact H|].
  rewrite completion_loop_cons in *.
  apply bind_Ret in H. destruct H as [an [Han H]].
  rewrite (response_time_fuel period wcet i (Hok i (or_introl eq_refl))
             fuel fuel' Hle) by (rewrite Han; discriminate).
  rewrite Han. cbn [bind].
  destruct (read deadline i) as [d| |]; cbn [bind] in *; try discriminate.
  destruct (d <? an); [exact H|].
  apply IH; [|exact H]. intros; apply Hok; right; assumption.
Qed.

(** ** Arrays that share a prefix *)








(** ** The completion-time test and the fixed points *)





Lemma deadline_entry (n : nat) (deadline : list Z) (i : nat) :
  deadlines n deadline -> (i < n)%nat ->
  (i < length deadline)%nat /\ in_u32 (nth i deadline 0).
Proof.
  intros [Hlen HF] Hi. split; [lia|].
  rewrite Forall_forall in HF. apply HF. apply nth_In. lia.
Qed.





(** ** The loops of the scheduling-point test *)

Section Points.

Variables period wcet : list Z.
Variable i : nat.
Hypothesis Hok : prefix_ok period wcet i.

Let P (j : nat) : Z := nth j period 0.




Variable k : nat.
Hypothesis Hk : (k <= i)%nat.






End Points.




Lemma i_loop_inv (fuel : nat) (period wcet : list Z) (tasks : list nat) :
  forall rc v,
    i_loop fuel period wcet tasks rc = Ret v ->
    (v = rc /\ forall i, In i tasks ->
                         k_loop fuel period wcet i (seq 0 (S i)) = Ret true)
    \/ (v = FALSE /\ exists i, In i tasks
                               /\ k_loop fuel period wcet i (seq 0 (S i))
                                  = Ret false).
Proof.
  induction tasks as [|i rest IH]; intros rc v H.
  - cbn in H. inversion H. left. split; [reflexivity | intros i []].
  - cbn [i_loop] in H. apply bind_Ret in H. destruct H as [status [Hk H]].
    destruct (IH _ _ H) as [[Hv Hall]|[Hv [i' [Hin Hf]]]].
    + destruct status.
      * left. split; [exact Hv|]. intros i' [<-|Hi']; [exact Hk | apply Hall; exact Hi'].
      * right. split; [exact Hv|]. exists i. split; [left; reflexivity | exact Hk].
    + right. split; [exact Hv|]. exists i'. split; [right; exact Hin | exact Hf].
Qed.


Lemma seq_le (i k : nat) : In k (seq 0 (S i)) -> (k <= i)%nat.
Proof. intros H. apply in_seq in H. lia. Qed.

(** ** The scheduling-point test and the scheduling points *)





(** ** Fixed points and scheduling points *)

Section Convergence.

Variable g : Z -> Z.
Hypothesis g_mono : forall a b, 0 <= a <= b -> g a <= g b.

(** An orbit that starts below a point [b] with [g b <= b] stops below [b]. *)
Lemma orbit_converges (b : Z) (n : nat) :
  forall a, 0 <= a <= g a -> a <= b -> g b <= b ->
            (Z.to_nat (b - a) <= n)%nat ->
            exists k, Nat.iter (S k) g a = Nat.iter k g a
                      /\ Nat.iter k g a <= b.
Proof.
  induction n as [|n IH]; intros a Ha Hab Hb Hn.
  - assert (a = b) by lia. subst a.
    exists 0%nat. cbn. split; lia.
  - destruct (Z.eq_dec (g a) a) as [E|E].
    + exists 0%nat. cbn. split; [exact E | exact Hab].
    + assert (g a <= g b) by (apply g_mono; lia).
      destruct (IH (g a)) as [k [Hfix Hle]]; try lia.
      * split; [lia|]. apply g_mono. lia.
      * exists (S k).
        pose proof (Nat.iter_succ_r (S k) Z g a) as E1.
        pose proof (Nat.iter_succ_r k Z g a) as E2.
        rewrite E1, E2. split; assumption.
Qed.

End Convergence.

Section Equivalence.

Variables period wcet : list Z.
Variable i : nat.
Hypothesis Hok : prefix_ok period wcet i.

Let P (j : nat) : Z := nth j period 0.








End Equivalence.

(** ** The utilization loop *)

Lemma for_each_app {S : Type} (js ks : list nat)
  (body : nat -> S -> outcome S) (s : S) :
  for_each (js ++ ks) body s
  = (s' <- for_each js body s ;; for_each ks body s').
Proof.
  revert s. induction js as [|j js IH]; intros s; [reflexivity|].
  cbn [app for_each]. destruct (body j s) as [x| |]; cbn [bind];
    [apply IH | reflexivity | reflexivity].
Qed.

Lemma utilization_loop_eq (period wcet : list Z) (n : nat) :
  (n <= length period)%nat -> (n <= length wcet)%nat ->
  utilization_loop n period wcet = Ret (utilization period wcet n).
Proof.
  unfold utilization_loop. induction n as [|n IH]; intros Hp Hw;
    [reflexivity|].
  rewrite seq_S, for_each_app, IH by lia. cbn [bind Nat.add for_each].
  rewrite !read_nth by lia. reflexivity.
Qed.

(** ** The iteration is over within [2^32] rounds *)

Lemma response_time_bounded (period wcet : list Z) (i fuel : nat) :
  prefix_ok period wcet i -> U32_MAX < Z.of_nat fuel ->
  response_time fuel period wcet i <> Timeout.
Proof.
  intros Hok Hfuel. rewrite response_time_loop by exact Hok.
  pose proof (wrap32_range (wcet_sum wcet i)) as Hr. unfold in_u32 in Hr.
  apply loop_bounded.
  - apply response_step_mono. exact Hok.
  - split; [lia|].
    destruct (Z.eq_dec (wrap32 (wcet_sum wcet i)) 0) as [E|E].
    + rewrite E. apply response_step_nonneg; [exact Hok | lia].
    + pose proof (response_step_ge_sum period wcet i Hok
                    (wrap32 (wcet_sum wcet i)) ltac:(lia)).
      pose proof (wcet_sum_pos period wcet i Hok).
      assert (wrap32 (wcet_sum wcet i) <= wcet_sum wcet i); [|lia].
      unfold wrap32. apply Z.mod_le; unfold U32_MAX; lia.
  - lia.
  - lia.
Qed.

Lemma completion_bounded (fuel n : nat) (period wcet deadline : list Z) :
  task_set n period wcet -> deadlines n deadline ->
  U32_MAX < Z.of_nat fuel ->
  completion_time_feasibility fuel n period wcet deadline <> Timeout.
Proof.
  intros Hts Hd Hfuel. unfold completion_time_feasibility.
  assert (forall i, In i (seq 0 n) -> (i < n)%nat) as Hin
    by (intros i Hi; apply in_seq in Hi; lia).
  revert Hin. generalize (seq 0 n) as tasks.
  induction tasks as [|i rest IH]; intros Hin; [discriminate|].
  rewrite completion_loop_cons.
  pose proof (Hin i (or_introl eq_refl)) as Hi.
  pose proof (response_time_bounded period wcet i fuel
                (task_set_prefix n _ _ i Hts Hi) Hfuel) as Hb.
  destruct (response_time fuel period wcet i) as [an| |];
    cbn [bind]; [|discriminate|congruence].
  rewrite read_nth by (apply (deadline_entry n); assumption). cbn [bind].
  destruct (nth i deadline 0 <? an); [discriminate|].
  apply IH. intros; apply Hin; right; assumption.
Qed.

(** Well-formedness of a concrete task set. *)
Ltac concrete_set :=
  constructor;
  [ lia | reflexivity | reflexivity
  | repeat (constructor; [unfold positive_u32, U32_MAX; lia|]); constructor
  | repeat (constructor; [unfold positive_u32, U32_MAX; lia|]); constructor ].


(** ** A task set on which the iteration has no fixed point *)

Lemma no_fixed_point_1_5 (R : Z) : ~ fixed_point [1; 5] [1; 1] 1 R.
Proof.
  intros [k [Hfix HR]]. cbn [a_seq] in Hfix. rewrite HR in Hfix.
  unfold response_step, big_sum in Hfix. cbn [seq fold_right nth] in Hfix.
  assert (cdiv R 1 = R) as E
    by (unfold cdiv; replace (R + 1 - 1) with R by lia; apply Z.div_1_r).
  rewrite E in Hfix. lia.
Qed.

Lemma task_set_1_5 : task_set 2 [1; 5] [1; 1].
Proof.
  concrete_set.
Qed.

Lemma no_verdict_1_5 (fuel : nat) (v : Z) :
  completion_time_feasibility fuel 2 [1; 5] [1; 1] [1; 5] <> Ret v.
Proof.
  intros H. unfold completion_time_feasibility in H. cbn [seq] in H.
  rewrite completion_loop_cons in H.
  apply bind_Ret in H. destruct H as [an0 [H0 H]].
  apply bind_Ret in H. destruct H as [d0 [Hd0 H]].
  inversion Hd0; subst d0.
  destruct (response_time_sound [1; 5] [1; 1] 0
              (task_set_prefix 2 _ _ 0 task_set_1_5 ltac:(lia)) fuel an0 H0)
    as [[k [Hfix HR]] _].
  cbn [a_seq] in Hfix. rewrite HR in Hfix.
  unfold response_step, big_sum in Hfix. cbn [seq fold_right nth] in Hfix.
  destruct (1 <? an0) eqn:E; [apply Z.ltb_lt in E; lia|].
  rewrite completion_loop_cons in H.
  apply bind_Ret in H. destruct H as [an1 [H1 _]].
  apply (no_fixed_point_1_5 an1).
  apply (response_time_sound [1; 5] [1; 1] 1
           (task_set_prefix 2 _ _ 1 task_set_1_5 ltac:(lia)) fuel an1 H1).
Qed.


Lemma task_set_deadlines (n : nat) (period wcet : list Z) :
  task_set n period wcet -> deadlines n period.
Proof.
  intros [_ Hlen _ HF _]. split; [exact Hlen|].
  apply (Forall_impl in_u32 (P := positive_u32)); [|exact HF].
  unfold in_u32, positive_u32. intros a. lia.
Qed.



(** ** Doubles agree with the integer model on sample quotients *)

Example ceil_exact_quotient :
  Binary64.ceil (Binary64.div (Binary64.of_Z 6) (Binary64.of_Z 3)) = Some (cdiv 6 3).
Proof. vm_compute. reflexivity. Qed.

Example ceil_close_quotient :
  Binary64.ceil (Binary64.div (Binary64.of_Z 4294967295) (Binary64.of_Z 4294967294))
  = Some (cdiv 4294967295 4294967294).
Proof. vm_compute. reflexivity. Qed.

Example floor_large_quotient :
  Binary64.floor (Binary64.div (Binary64.of_Z 4294967295) (Binary64.of_Z 2))
  = Some (4294967295 / 2).
Proof. vm_compute. reflexivity. Qed.

Example division_by_zero :
  Binary64.div (Binary64.of_Z 7) (Binary64.of_Z 0) = S754_infinity false
  /\ Binary64.div (Binary64.of_Z 0) (Binary64.of_Z 0) = S754_nan.
Proof. vm_compute. split; reflexivity. Qed.

Example statement_in_double :
  add_ceil_mul_double 2 5 2 1 = add_ceil_mul 2 5 2 1
  /\ add_ceil_mul_double 1 4294967295 4294967294 7 = add_ceil_mul 1 4294967295 4294967294 7
  /\ add_ceil_mul_double 5 4294967290 3 3 = add_ceil_mul 5 4294967290 3 3
  /\ add_ceil_mul_double 2 4294967294 2147483650 2147483647
     = add_ceil_mul 2 4294967294 2147483650 2147483647
  /\ add_ceil_mul_double 4294967295 4294967295 1 4294967295
     = add_ceil_mul 4294967295 4294967295 1 4294967295
  /\ add_ceil_mul_double 3 7 0 2 = add_ceil_mul 3 7 0 2
  /\ add_ceil_mul_double 3 0 0 0 = add_ceil_mul 3 0 0 0.
Proof. vm_compute. repeat split; reflexivity. Qed.

(** The utilization is a rounded sum: here it is exactly 1.0 although the
    exact sum of the two quotients exceeds 1 by [1 / (T_0 * T_1)]. *)
Example utilization_is_rounded :
  utilization [1344783569; 2169254972] [369241488; 1573635757] 2 = Binary64.one
  /\ 369241488 * 2169254972 + 1573635757 * 1344783569
     = 1344783569 * 2169254972 + 1.
Proof. vm_compute. split; reflexivity. Qed.

(** ** Iterations that stay within [U32_T] *)






Lemma completion_loop_returns (fuel : nat) (period wcet deadline : list Z)
  (tasks : list nat) :
  (forall i, In i tasks ->
             (i < length deadline)%nat
             /\ exists R, response_time fuel period wcet i = Ret R) ->
  exists v, completion_loop fuel period wcet deadline tasks = Ret v.
Proof.
  induction tasks as [|i rest IH]; intros Hall.
  - exists TRUE. reflexivity.
  - destruct (Hall i (or_introl eq_refl)) as [Hlen [R HR]].
    rewrite completion_loop_cons, HR. cbn [bind].
    rewrite (read_nth deadline i Hlen). cbn [bind].
    destruct (nth i deadline 0 <? R); [exists FALSE; reflexivity|].
    apply IH. intros i' Hin. apply Hall. right. exact Hin.
Qed.

Lemma completion_time_returns (n : nat) (period wcet deadline : list Z) :
  task_set n period wcet -> deadlines n deadline ->
  converges n period wcet ->
  exists fuel v,
    completion_time_feasibility fuel n period wcet deadline = Ret v.
Proof.
  intros Hts Hdl Hfix.
  destruct (common_fuel
              (fun fuel i => exists R, response_time fuel period wcet i = Ret R)
              n) as [fuel Hfuel].
  - intros i fuel fuel' Hi Hle [R HR]. exists R.
    rewrite (response_time_fuel period wcet i
               (task_set_prefix n period wcet i Hts Hi) fuel fuel' Hle);
      [exact HR | rewrite HR; discriminate].
  - intros i Hi. destruct (Hfix i Hi) as [R [[k [Hk1 Hk2]] HR]].
    exists (S k), (a_seq period wcet i k).
    apply (response_time_complete period wcet i
             (task_set_prefix n period wcet i Hts Hi) k Hk1). lia.
  - exists fuel. unfold completion_time_feasibility.
    apply completion_loop_returns. intros i Hin. apply in_seq in Hin.
    split; [rewrite (dl_length _ _ Hdl); lia | apply Hfuel; lia].
Qed.


(** * The claims of the specification *)














Lemma task_set_ex2 : task_set 4 ex2_period ex2_wcet.
Proof.
  concrete_set.
Qed.

(** On the task set of [main] the completion-time test does not return
    TRUE: the fixed point of the last task is 14, its deadline 13. *)
Lemma ex2_completion_not_TRUE :
  completion_time_feasibility 6 4 ex2_period ex2_wcet ex2_period = Ret FALSE
  /\ a_seq ex2_period ex2_wcet 3 5 = 14
  /\ a_seq ex2_period ex2_wcet 3 6 = 14
  /\ forall fuel,
      completion_time_feasibility fuel 4 ex2_period ex2_wcet ex2_period
      <> Ret TRUE.
Proof.
  split; [vm_compute; reflexivity|].
  split; [vm_compute; reflexivity|].
  split; [vm_compute; reflexivity|].
  intros fuel H.
  pose proof (task_set_deadlines 4 _ _ task_set_ex2) as Hd.
  pose proof (completion_fuel fuel (Nat.max fuel 6) 4 ex2_period ex2_wcet
                ex2_period TRUE task_set_ex2 Hd (Nat.le_max_l _ _) H) as H1.
  assert (completion_time_feasibility 6 4 ex2_period ex2_wcet ex2_period
          = Ret FALSE) as H6 by (vm_compute; reflexivity).
  pose proof (completion_fuel 6 (Nat.max fuel 6) 4 ex2_period ex2_wcet
                ex2_period FALSE task_set_ex2 Hd (Nat.le_max_r _ _) H6) as H2.
  rewrite H1 in H2. discriminate.
Qed.

(** C7, amended. For the task set with periods {2, 5, 7, 13}, WCETs
    {1, 1, 1, 2} and implicit deadlines, [completion_time_feasibility]
    returns FALSE, [scheduling_point_feasibility] returns FALSE,
    [rate_monotonic_least_upper_bound] returns FALSE and [edf_feasibility]
    returns TRUE, [pow(2.0, 0.25)] being the double nearest to the fourth
    root of 2. *)
Theorem ex2_verdicts
  (pow : Binary64.double -> Binary64.double -> Binary64.double) :
  pow Binary64.two (Binary64.div Binary64.one (Binary64.of_Z 4)) = root4_of_2 ->
  completion_time_feasibility 6 4 ex2_period ex2_wcet ex2_period = Ret FALSE
  /\ scheduling_point_feasibility 7 4 ex2_period ex2_wcet ex2_period = Ret FALSE
  /\ rate_monotonic_least_upper_bound pow 4 ex2_period ex2_wcet ex2_period
     = Ret FALSE
  /\ edf_feasibility 4 ex2_period ex2_wcet = Ret TRUE.
Proof.
  intros Hpow. split; [vm_compute; reflexivity|].
  split; [vm_compute; reflexivity|].
  split; [|vm_compute; reflexivity].
  unfold rate_monotonic_least_upper_bound.
  rewrite utilization_loop_eq by (cbn; lia). cbn [bind].
  unfold lub_of.
  change (Z.of_nat 4) with 4. rewrite Hpow. vm_compute. reflexivity.
Qed.

Lemma ex2_verdicts_witness :
  (fun _ _ => root4_of_2) Binary64.two
    (Binary64.div Binary64.one (Binary64.of_Z 4)) = root4_of_2
  /\ rate_monotonic_least_upper_bound (fun _ _ => root4_of_2) 4
       ex2_period ex2_wcet ex2_period = Ret FALSE.
Proof.
  split; [reflexivity|].
  exact (proj1 (proj2 (proj2 (ex2_verdicts (fun _ _ => root4_of_2) eq_refl)))).
Defined.

(** A task set of utilization 1.2 on which the iteration of task 1 passes
    its deadline 5 without stopping (the iterates 6 and 7 follow) and the
    completion-time test never returns. *)
Lemma completion_time_runs_on :
  task_set 2 [1; 5] [1; 1] /\ deadlines 2 [1; 5]
  /\ a_seq [1; 5] [1; 1] 1 4 = 6 /\ a_seq [1; 5] [1; 1] 1 5 = 7
  /\ response_time 1000 [1; 5] [1; 1] 1 = Timeout
  /\ (forall fuel v,
         completion_time_feasibility fuel 2 [1; 5] [1; 1] [1; 5] <> Ret v).
Proof.
  split; [exact task_set_1_5|].
  split; [exact (task_set_deadlines 2 _ _ task_set_1_5)|].
  split; [vm_compute; reflexivity|].
  split; [vm_compute; reflexivity|].
  split; [vm_compute; reflexivity|].
  exact no_verdict_1_5.
Qed.

(** C8, amended. For every task set of N >= 1 tasks with strictly positive
    periods and WCETs, the per-task iteration of
    [completion_time_feasibility] has no deadline check: it stops only at a
    fixed point of the recurrence.  Its iterates never decrease, so within
    [2^32] rounds it either stops at a fixed point or produces an iterate
    that does not fit [U32_T], where the conversion is undefined; with that
    much fuel neither a task's loop nor the function is still running. *)
Theorem completion_time_iteration_bounded
  (n : nat) (period wcet deadline : list Z) :
  task_set n period wcet -> deadlines n deadline ->
  (forall i fuel R, (i < n)%nat ->
                    response_time fuel period wcet i = Ret R ->
                    fixed_point period wcet i R)
  /\ (forall i k k', (i < n)%nat -> (k <= k')%nat ->
                     a_seq period wcet i k <= a_seq period wcet i k')
  /\ (forall fuel, U32_MAX < Z.of_nat fuel ->
                   (forall i, (i < n)%nat ->
                              response_time fuel period wcet i <> Timeout)
                   /\ completion_time_feasibility fuel n period wcet deadline
                      <> Timeout).
Proof.
  intros Hts Hd. split; [|split].
  - intros i fuel R Hi H.
    apply (response_time_sound period wcet i
             (task_set_prefix n _ _ i Hts Hi) fuel R H).
  - intros i k k' Hi Hk.
    apply a_seq_mono; [apply (task_set_prefix n) |]; assumption.
  - intros fuel Hfuel. split.
    + intros i Hi. apply response_time_bounded; [|exact Hfuel].
      apply (task_set_prefix n); assumption.
    + apply completion_bounded; assumption.
Qed.

Lemma completion_time_iteration_bounded_witness :
  task_set 2 [1; 5] [1; 1] /\ deadlines 2 [1; 5]
  /\ forall fuel, U32_MAX < Z.of_nat fuel ->
                  (forall i, (i < 2)%nat ->
                             response_time fuel [1; 5] [1; 1] i <> Timeout)
                  /\ completion_time_feasibility fuel 2 [1; 5] [1; 1] [1; 5]
                     <> Timeout.
Proof.
  assert (task_set 2 [1; 5] [1; 1]) as Hts by concrete_set.
  assert (deadlines 2 [1; 5]) as Hd
    by (split; [reflexivity|];
        repeat (constructor; [unfold in_u32, U32_MAX; lia|]); constructor).
  split; [exact Hts|]. split; [exact Hd|].
  exact (proj2 (proj2 (completion_time_iteration_bounded
                         2 [1; 5] [1; 1] [1; 5] Hts Hd))).
Defined.




(** C10. For every [numServices], period array and WCET array, and any two
    deadline arrays, [scheduling_point_feasibility] returns the same with
    the one as with the other, and so does
    [rate_monotonic_least_upper_bound]: neither depends on the deadlines. *)
Theorem deadline_independence
  (pow : Binary64.double -> Binary64.double -> Binary64.double)
  (fuel n : nat) (period wcet d1 d2 : list Z) :
  scheduling_point_feasibility fuel n period wcet d1
  = scheduling_point_feasibility fuel n period wcet d2
  /\ rate_monotonic_least_upper_bound pow n period wcet d1
     = rate_monotonic_least_upper_bound pow n period wcet d2.
Proof. split; reflexivity. Qed.

(** * Further properties of the feasibility tests *)

(** ** Dropping and adding low-priority tasks *)

Lemma completion_loop_app_TRUE (fuel : nat) (period wcet deadline : list Z)
  (pre post : list nat) :
  completion_loop fuel period wcet deadline (pre ++ post) = Ret TRUE ->
  completion_loop fuel period wcet deadline pre = Ret TRUE.
Proof.
  induction pre as [|i pre IH]; intros H; [reflexivity|].
  cbn [app] in H. rewrite completion_loop_cons in *.
  destruct (response_time fuel period wcet i) as [an| |];
    cbn [bind] in *; try discriminate.
  destruct (read deadline i) as [d| |]; cbn [bind] in *; try discriminate.
  destruct (d <? an); [discriminate | exact (IH H)].
Qed.

Lemma completion_loop_app_FALSE (fuel : nat) (period wcet deadline : list Z)
  (pre post : list nat) :
  completion_loop fuel period wcet deadline pre = Ret FALSE ->
  completion_loop fuel period wcet deadline (pre ++ post) = Ret FALSE.
Proof.
  induction pre as [|i pre IH]; intros H; [discriminate|].
  cbn [app]. rewrite completion_loop_cons in *.
  destruct (response_time fuel period wcet i) as [an| |];
    cbn [bind] in *; try discriminate.
  destruct (read deadline i) as [d| |]; cbn [bind] in *; try discriminate.
  destruct (d <? an); [exact H | exact (IH H)].
Qed.

Lemma i_loop_app_TRUE (fuel : nat) (period wcet : list Z) (pre post : list nat) :
  forall rc, i_loop fuel period wcet (pre ++ post) rc = Ret TRUE ->
             i_loop fuel period wcet pre rc = Ret TRUE.
Proof.
  induction pre as [|i pre IH]; intros rc H.
  - cbn [app] in H. cbn [i_loop]. f_equal.
    destruct (i_loop_inv _ _ _ _ _ _ H) as [[Hv _]|[Hv _]];
      [symmetry; exact Hv | discriminate].
  - cbn [app i_loop] in *.
    destruct (k_loop fuel period wcet i (seq 0 (S i))) as [status| |];
      cbn [bind] in *; try discriminate.
    apply IH. exact H.
Qed.

Lemma i_loop_FALSE_stays (fuel : nat) (period wcet : list Z) (tasks : list nat)
  (v : Z) :
  i_loop fuel period wcet tasks FALSE = Ret v -> v = FALSE.
Proof.
  intros H. destruct (i_loop_inv _ _ _ _ _ _ H) as [[Hv _]|[Hv _]]; exact Hv.
Qed.

Lemma i_loop_app_FALSE (fuel : nat) (period wcet : list Z) (pre post : list nat) :
  forall rc v, i_loop fuel period wcet pre rc = Ret FALSE ->
               i_loop fuel period wcet (pre ++ post) rc = Ret v -> v = FALSE.
Proof.
  induction pre as [|i pre IH]; intros rc v H Hv.
  - cbn [i_loop] in H. inversion H; subst rc. cbn [app] in Hv.
    exact (i_loop_FALSE_stays _ _ _ _ _ Hv).
  - cbn [app i_loop] in *.
    destruct (k_loop fuel period wcet i (seq 0 (S i))) as [status| |];
      cbn [bind] in *; try discriminate.
    exact (IH _ _ H Hv).
Qed.

(** X1. Tasks of lowest priority can be dropped from a feasible set and
    cannot rescue an infeasible one: when either exact test returns TRUE for
    [n] tasks it returns TRUE for the first [m <= n] of them, with the same
    arrays; when [completion_time_feasibility] returns FALSE for the first
    [m] tasks it returns FALSE for all [n], and when
    [scheduling_point_feasibility] does, whatever it returns for [n] is
    FALSE. *)
Theorem priority_prefix
  (fuel n m : nat) (period wcet deadline : list Z) :
  (m <= n)%nat ->
  (completion_time_feasibility fuel n period wcet deadline = Ret TRUE ->
   completion_time_feasibility fuel m period wcet deadline = Ret TRUE)
  /\ (scheduling_point_feasibility fuel n period wcet deadline = Ret TRUE ->
      scheduling_point_feasibility fuel m period wcet deadline = Ret TRUE)
  /\ (completion_time_feasibility fuel m period wcet deadline = Ret FALSE ->
      completion_time_feasibility fuel n period wcet deadline = Ret FALSE)
  /\ (scheduling_point_feasibility fuel m period wcet deadline = Ret FALSE ->
      forall v, scheduling_point_feasibility fuel n period wcet deadline
                = Ret v -> v = FALSE).
Proof.
  intros Hmn.
  unfold completion_time_feasibility, scheduling_point_feasibility.
  replace n with (m + (n - m))%nat by lia. rewrite seq_app.
  split; [|split; [|split]].
  - apply completion_loop_app_TRUE.
  - apply i_loop_app_TRUE.
  - apply completion_loop_app_FALSE.
  - intros H v. apply i_loop_app_FALSE. exact H.
Qed.

Lemma priority_prefix_witness :
  (1 <= 2)%nat
  /\ completion_time_feasibility 3 2 [2; 5] [1; 1] [2; 5] = Ret TRUE
  /\ completion_time_feasibility 3 1 [2; 5] [1; 1] [2; 5] = Ret TRUE.
Proof.
  assert (1 <= 2)%nat as Hle by lia.
  assert (completion_time_feasibility 3 2 [2; 5] [1; 1] [2; 5] = Ret TRUE)
    as H2 by (vm_compute; reflexivity).
  split; [exact Hle|]. split; [exact H2|].
  exact (proj1 (priority_prefix 3 2 1 [2; 5] [1; 1] [2; 5] Hle) H2).
Defined.

(** ** What an accepted set satisfies *)








(** X4. A light set is accepted in the first round: when for every task [i]
    the sum of [wcet_0 .. wcet_i] is at most [deadline_i] and at most every
    period of a higher-priority task, the seed of each iteration is already
    its fixed point and [completion_time_feasibility] returns TRUE with one
    round of the [do ... while] loop per task. *)
Theorem light_set_accepted
  (fuel n : nat) (period wcet deadline : list Z) :
  task_set n period wcet -> deadlines n deadline ->
  (forall i, (i < n)%nat ->
             wcet_sum wcet i <= nth i deadline 0
             /\ forall j, (j < i)%nat -> wcet_sum wcet i <= nth j period 0) ->
  completion_time_feasibility (S fuel) n period wcet deadline = Ret TRUE.
Proof.
  intros Hts Hdl Hlight.
  unfold completion_time_feasibility.
  apply completion_loop_TRUE.
  - intros i Hin. apply in_seq in Hin. rewrite (dl_length _ _ Hdl). lia.
  - intros i Hin. apply in_seq in Hin.
    assert (i < n)%nat as Hi by lia.
    destruct (Hlight i Hi) as [Hd Hp].
    pose proof (task_set_prefix n period wcet i Hts Hi) as Hok.
    pose proof (deadline_entry n deadline i Hdl Hi) as [_ Hdr].
    exists (wcet_sum wcet i). split; [|exact Hd].
    assert (a_seq period wcet i 1 = a_seq period wcet i 0) as Hfix.
    { cbn [a_seq]. unfold response_step.
      rewrite (wcet_sum_split wcet i). f_equal.
      apply big_sum_ext. intros j Hj. apply in_seq in Hj.
      rewrite <- (wcet_sum_split wcet i).
      rewrite cdiv_one; [lia|].
      split; [exact (wcet_sum_pos period wcet i Hok) | apply Hp; lia]. }
    assert (a_seq period wcet i 0 <= U32_MAX) as Hfit
      by (cbn [a_seq]; unfold in_u32 in Hdr; lia).
    pose proof (response_time_complete period wcet i Hok 0 Hfix Hfit) as H1.
    rewrite (response_time_fuel period wcet i Hok 1 (S fuel)); [exact H1|lia|].
    rewrite H1. discriminate.
Qed.

Lemma light_set_accepted_witness :
  completion_time_feasibility 1 2 [2; 5] [1; 1] [2; 5] = Ret TRUE.
Proof.
  assert (task_set 2 [2; 5] [1; 1]) as Hts by concrete_set.
  apply (light_set_accepted 0 2 [2; 5] [1; 1] [2; 5] Hts
           (task_set_deadlines 2 [2; 5] [1; 1] Hts)).
  intros i Hi.
  assert (i = 0 \/ i = 1)%nat as [ -> | -> ] by lia.
  - split; [vm_compute; discriminate | intros j Hj; lia].
  - split; [vm_compute; discriminate|].
    intros j Hj. assert (j = 0)%nat as -> by lia. vm_compute. discriminate.
Defined.

(** ** Sustainability *)










(** ** Arrays and the entries the tests read *)

Lemma for_each_ext_in {S : Type} (js : list nat)
  (body body' : nat -> S -> outcome S) :
  (forall j s, In j js -> body' j s = body j s) ->
  forall s, for_each js body' s = for_each js body s.
Proof.
  induction js as [|j js IH]; intros Hb s; [reflexivity|].
  cbn [for_each]. rewrite (Hb j s (or_introl eq_refl)).
  destruct (body j s) as [s'| |]; cbn [bind]; try reflexivity.
  apply IH. intros j' s'' Hin. apply Hb. right. exact Hin.
Qed.

Lemma read_agree (arr arr' : list Z) (j : nat) :
  nth_error arr' j = nth_error arr j -> read arr' j = read arr j.
Proof. intros H. unfold read. rewrite H. reflexivity. Qed.

Lemma seed_agree (wcet wcet' : list Z) (i : nat) :
  (forall j, (j <= i)%nat -> nth_error wcet' j = nth_error wcet j) ->
  seed wcet' i = seed wcet i.
Proof.
  intros Hw. unfold seed. apply for_each_ext_in.
  intros j an Hin. apply seq_le in Hin.
  rewrite (read_agree wcet wcet' j (Hw j Hin)). reflexivity.
Qed.

Lemma next_iterate_agree (period wcet period' wcet' : list Z) (i : nat) (an : Z) :
  (forall j, (j < i)%nat -> nth_error period' j = nth_error period j) ->
  (forall j, (j <= i)%nat -> nth_error wcet' j = nth_error wcet j) ->
  next_iterate period' wcet' i an = next_iterate period wcet i an.
Proof.
  intros Hp Hw. unfold next_iterate.
  rewrite (read_agree wcet wcet' i (Hw i (Nat.le_refl i))).
  destruct (read wcet i) as [wi| |]; cbn [bind]; try reflexivity.
  apply for_each_ext_in. intros j anext Hin. apply in_seq in Hin.
  rewrite (read_agree period period' j), (read_agree wcet wcet' j);
    [reflexivity | apply Hw; lia | apply Hp; lia].
Qed.

Lemma iterate_agree (period wcet period' wcet' : list Z) (i fuel : nat) :
  (forall j, (j < i)%nat -> nth_error period' j = nth_error period j) ->
  (forall j, (j <= i)%nat -> nth_error wcet' j = nth_error wcet j) ->
  forall an, iterate fuel period' wcet' i an = iterate fuel period wcet i an.
Proof.
  intros Hp Hw. induction fuel as [|fuel IH]; intros an; [reflexivity|].
  cbn [iterate]. rewrite (next_iterate_agree period wcet period' wcet' i an Hp Hw).
  destruct (next_iterate period wcet i an) as [anext| |]; cbn [bind];
    try reflexivity.
  destruct (anext =? an); [reflexivity | apply IH].
Qed.

Lemma completion_loop_agree
  (fuel n : nat) (period wcet deadline period' wcet' deadline' : list Z)
  (tasks : list nat) :
  (forall j, (S j < n)%nat -> nth_error period' j = nth_error period j) ->
  (forall j, (j < n)%nat -> nth_error wcet' j = nth_error wcet j) ->
  (forall j, (j < n)%nat -> nth_error deadline' j = nth_error deadline j) ->
  (forall i, In i tasks -> (i < n)%nat) ->
  completion_loop fuel period' wcet' deadline' tasks
  = completion_loop fuel period wcet deadline tasks.
Proof.
  intros Hp Hw Hd. induction tasks as [|i rest IH]; intros Hin; [reflexivity|].
  assert (i < n)%nat as Hi by (apply Hin; left; reflexivity).
  cbn [completion_loop].
  rewrite (seed_agree wcet wcet' i) by (intros j Hj; apply Hw; lia).
  destruct (seed wcet i) as [an0| |]; cbn [bind]; try reflexivity.
  rewrite (iterate_agree period wcet period' wcet' i fuel)
    by (intros j Hj; (apply Hp || apply Hw); lia).
  destruct (iterate fuel period wcet i an0) as [an| |]; cbn [bind];
    try reflexivity.
  rewrite (read_agree deadline deadline' i (Hd i Hi)).
  destruct (read deadline i) as [d| |]; cbn [bind]; try reflexivity.
  destruct (d <? an); [reflexivity|].
  apply IH. intros i' Hin'. apply Hin. right. exact Hin'.
Qed.

(** X7. [completion_time_feasibility] reads [wcet] and [deadline] at the
    indices below [numServices] and [period] at the indices below
    [numServices - 1] only: the period of the task of lowest priority is
    never read.  Two calls whose arrays hold the same entries there have the
    same outcome, whatever the entries are. *)
Theorem completion_time_reads
  (fuel n : nat) (period wcet deadline period' wcet' deadline' : list Z) :
  (forall j, (S j < n)%nat -> nth_error period' j = nth_error period j) ->
  (forall j, (j < n)%nat -> nth_error wcet' j = nth_error wcet j) ->
  (forall j, (j < n)%nat -> nth_error deadline' j = nth_error deadline j) ->
  completion_time_feasibility fuel n period' wcet' deadline'
  = completion_time_feasibility fuel n period wcet deadline.
Proof.
  intros Hp Hw Hd. unfold completion_time_feasibility.
  apply (completion_loop_agree fuel n); try assumption.
  intros i Hin. apply in_seq in Hin. lia.
Qed.

Lemma completion_time_reads_witness :
  completion_time_feasibility 3 2 [2] [1; 1; 9] [2; 5; 0]
  = completion_time_feasibility 3 2 [2; 5] [1; 1] [2; 5].
Proof.
  apply (completion_time_reads 3 2 [2; 5] [1; 1] [2; 5] [2] [1; 1; 9] [2; 5; 0]).
  - intros j Hj. assert (j = 0)%nat as -> by lia. reflexivity.
  - intros j Hj.
    assert (j = 0 \/ j = 1)%nat as [ -> | -> ] by lia; reflexivity.
  - intros j Hj.
    assert (j = 0 \/ j = 1)%nat as [ -> | -> ] by lia; reflexivity.
Defined.

Lemma demand_at_agree (period wcet period' wcet' : list Z) (i : nat) (t : Z) :
  (forall j, (j <= i)%nat -> nth_error period' j = nth_error period j) ->
  (forall j, (j <= i)%nat -> nth_error wcet' j = nth_error wcet j) ->
  demand_at period' wcet' i t = demand_at period wcet i t.
Proof.
  intros Hp Hw. unfold demand_at. apply for_each_ext_in.
  intros j temp Hin. apply seq_le in Hin.
  rewrite (read_agree period period' j (Hp j Hin)),
    (read_agree wcet wcet' j (Hw j Hin)).
  reflexivity.
Qed.

Lemma l_loop_agree (period wcet period' wcet' : list Z) (i k fuel : nat) :
  (forall j, (j <= i)%nat -> nth_error period' j = nth_error period j) ->
  (forall j, (j <= i)%nat -> nth_error wcet' j = nth_error wcet j) ->
  (k <= i)%nat ->
  forall l, l_loop fuel period' wcet' i k l = l_loop fuel period wcet i k l.
Proof.
  intros Hp Hw Hk. induction fuel as [|fuel IH]; intros l; [reflexivity|].
  cbn [l_loop].
  rewrite (read_agree period period' i (Hp i (Nat.le_refl i))).
  destruct (read period i) as [pi| |]; cbn [bind]; try reflexivity.
  rewrite (read_agree period period' k (Hp k Hk)).
  destruct (read period k) as [pk| |]; cbn [bind]; try reflexivity.
  destruct (le_bound l (floor_quot pi pk)); [|reflexivity].
  rewrite (demand_at_agree period wcet period' wcet' i _ Hp Hw).
  destruct (demand_at period wcet i (wrap32 (l * pk))) as [temp| |];
    cbn [bind]; try reflexivity.
  destruct (temp <=? wrap32 (l * pk)); [reflexivity|].
  destruct (l =? INT_MAX); [reflexivity | apply IH].
Qed.

Lemma k_loop_agree (period wcet period' wcet' : list Z) (i fuel : nat)
  (ks : list nat) :
  (forall j, (j <= i)%nat -> nth_error period' j = nth_error period j) ->
  (forall j, (j <= i)%nat -> nth_error wcet' j = nth_error wcet j) ->
  (forall k, In k ks -> (k <= i)%nat) ->
  k_loop fuel period' wcet' i ks = k_loop fuel period wcet i ks.
Proof.
  intros Hp Hw. induction ks as [|k ks IH]; intros Hin; [reflexivity|].
  cbn [k_loop].
  rewrite (l_loop_agree period wcet period' wcet' i k fuel Hp Hw)
    by (apply Hin; left; reflexivity).
  destruct (l_loop fuel period wcet i k 1) as [[|]| |]; cbn [bind];
    try reflexivity.
  apply IH. intros k' Hk'. apply Hin. right. exact Hk'.
Qed.

Lemma i_loop_agree (fuel n : nat) (period wcet period' wcet' : list Z)
  (tasks : list nat) :
  (forall j, (j < n)%nat -> nth_error period' j = nth_error period j) ->
  (forall j, (j < n)%nat -> nth_error wcet' j = nth_error wcet j) ->
  (forall i, In i tasks -> (i < n)%nat) ->
  forall rc, i_loop fuel period' wcet' tasks rc
             = i_loop fuel period wcet tasks rc.
Proof.
  intros Hp Hw. induction tasks as [|i rest IH]; intros Hin rc; [reflexivity|].
  assert (i < n)%nat as Hi by (apply Hin; left; reflexivity).
  cbn [i_loop].
  rewrite (k_loop_agree period wcet period' wcet' i fuel (seq 0 (S i)))
    by (try (intros j Hj; (apply Hp || apply Hw); lia); apply seq_le).
  destruct (k_loop fuel period wcet i (seq 0 (S i))) as [status| |];
    cbn [bind]; try reflexivity.
  apply IH. intros i' Hin'. apply Hin. right. exact Hin'.
Qed.

(** X8. [scheduling_point_feasibility] reads [period] and [wcet] at the
    indices below [numServices] only, and nothing of [deadline]: two calls
    whose arrays hold the same entries there have the same outcome. *)
Theorem scheduling_point_reads
  (fuel n : nat) (period wcet deadline period' wcet' deadline' : list Z) :
  (forall j, (j < n)%nat -> nth_error period' j = nth_error period j) ->
  (forall j, (j < n)%nat -> nth_error wcet' j = nth_error wcet j) ->
  scheduling_point_feasibility fuel n period' wcet' deadline'
  = scheduling_point_feasibility fuel n period wcet deadline.
Proof.
  intros Hp Hw. unfold scheduling_point_feasibility.
  apply (i_loop_agree fuel n); try assumption.
  intros i Hin. apply in_seq in Hin. lia.
Qed.

Lemma scheduling_point_reads_witness :
  scheduling_point_feasibility 4 2 [2; 5; 0] [1; 1; 9] []
  = scheduling_point_feasibility 4 2 [2; 5] [1; 1] [2; 5].
Proof.
  apply (scheduling_point_reads 4 2 [2; 5] [1; 1] [2; 5] [2; 5; 0] [1; 1; 9] []).
  - intros j Hj.
    assert (j = 0 \/ j = 1)%nat as [ -> | -> ] by lia; reflexivity.
  - intros j Hj.
    assert (j = 0 \/ j = 1)%nat as [ -> | -> ] by lia; reflexivity.
Defined.

(** ** A period of zero *)

Lemma read_Some (arr : list Z) (j : nat) (v : Z) :
  nth_error arr j = Some v -> read arr j = Ret v.
Proof. intros H. unfold read. rewrite H. reflexivity. Qed.






(** ** A single task *)

(** X10. For one task both exact tests are a single comparison.  With
    [numServices = 1], [completion_time_feasibility] returns TRUE exactly
    when [wcet_0 <= deadline_0], without reading the period array, and
    [scheduling_point_feasibility] returns TRUE exactly when
    [wcet_0 <= period_0], for a positive period. *)
Theorem single_task
  (fuel : nat) (period wcet deadline : list Z) (p w d : Z) :
  nth_error wcet 0 = Some w -> in_u32 w ->
  (nth_error deadline 0 = Some d ->
   completion_time_feasibility (S fuel) 1 period wcet deadline
   = Ret (if w <=? d then TRUE else FALSE))
  /\ (nth_error period 0 = Some p -> positive_u32 p ->
      scheduling_point_feasibility (S (S fuel)) 1 period wcet deadline
      = Ret (if w <=? p then TRUE else FALSE)).
Proof.
  intros Hw Hwr. split.
  - intros Hd. unfold completion_time_feasibility.
    cbn [seq completion_loop seed for_each iterate].
    rewrite (read_Some wcet 0 w Hw). cbn [bind].
    change (0 + w) with w. rewrite (wrap32_small w Hwr).
    unfold next_iterate. rewrite (read_Some wcet 0 w Hw).
    cbn [seq for_each bind]. rewrite Z.eqb_refl.
    rewrite (read_Some deadline 0 d Hd). cbn [bind].
    rewrite Z.ltb_antisym. destruct (w <=? d); reflexivity.
  - intros Hp Hpr. unfold scheduling_point_feasibility.
    assert (p <> 0) as Hp0 by (unfold positive_u32 in Hpr; lia).
    assert (floor_quot p p = Fin 1) as Hq.
    { unfold floor_quot. rewrite (proj2 (Z.eqb_neq p 0) Hp0).
      rewrite Z.div_same by exact Hp0. reflexivity. }
    assert (wrap32 (1 * p) = p) as Ht.
    { rewrite Z.mul_1_l. apply wrap32_small.
      unfold positive_u32 in Hpr. unfold in_u32. lia. }
    assert (demand_at period wcet 0 p = Ret w) as Hdem.
    { unfold demand_at. cbn [seq for_each].
      rewrite (read_Some wcet 0 w Hw), (read_Some period 0 p Hp).
      cbn [bind]. unfold add_ceil_mul.
      rewrite (proj2 (Z.eqb_neq p 0) Hp0).
      assert (cdiv p p = 1) as -> by (apply cdiv_one; unfold positive_u32 in Hpr; lia).
      replace (0 + 1 * w) with w by lia.
      rewrite (to_u32_Ret w Hwr). reflexivity. }
    cbn [seq i_loop k_loop].
    change (l_loop (S (S fuel)) period wcet 0 0 1)
      with (pi <- read period 0 ;;
            pk <- read period 0 ;;
            if le_bound 1 (floor_quot pi pk) then
              let t := wrap32 (1 * pk) in
              temp <- demand_at period wcet 0 t ;;
              if temp <=? t then Ret true
              else if 1 =? INT_MAX then Undef
                   else l_loop (S fuel) period wcet 0 0 (1 + 1)
            else Ret false).
    rewrite (read_Some period 0 p Hp). cbn [bind].
    rewrite Hq. cbn [le_bound]. change (1 <=? 1) with true. cbv zeta.
    rewrite Ht, Hdem. cbn [bind].
    destruct (w <=? p); [reflexivity|].
    change (1 =? INT_MAX) with false. cbv iota.
    cbn [l_loop]. rewrite (read_Some period 0 p Hp). cbn [bind].
    rewrite Hq. reflexivity.
Qed.

Lemma single_task_witness :
  completion_time_feasibility 1 1 [] [3] [2] = Ret FALSE
  /\ scheduling_point_feasibility 2 1 [4] [3] [2] = Ret TRUE.
Proof.
  assert (in_u32 3) as Hr by (unfold in_u32, U32_MAX; lia).
  assert (positive_u32 4) as Hp by (unfold positive_u32, U32_MAX; lia).
  split.
  - exact (proj1 (single_task 0 [] [3] [2] 4 3 2 eq_refl Hr) eq_refl).
  - exact (proj2 (single_task 0 [4] [3] [2] 4 3 2 eq_refl Hr) eq_refl Hp).
Defined.

(** ** Termination of the completion-time test *)

Lemma cdiv_multiple (q p : Z) : 0 < p -> cdiv (q * p) p = q.
Proof.
  intros Hp. unfold cdiv.
  replace (q * p + p - 1) with (q * p + (p - 1)) by lia.
  rewrite Z.div_add_l by lia. rewrite Z.div_small by lia. lia.
Qed.

Lemma hyperperiod_work_snoc (period wcet : list Z) (i : nat) (H : Z) :
  hyperperiod_work period wcet i H
  = big_sum (seq 0 i) (fun j => nth j wcet 0 * (H / nth j period 0))
    + nth i wcet 0 * (H / nth i period 0).
Proof. unfold hyperperiod_work. apply big_sum_snoc. Qed.

Lemma hyperperiod_work_le (period wcet : list Z) (i i' : nat) (H : Z) :
  prefix_ok period wcet i' -> 0 <= H -> (i <= i')%nat ->
  hyperperiod_work period wcet i H <= hyperperiod_work period wcet i' H.
Proof.
  intros Hok HH Hi. unfold hyperperiod_work.
  replace (S i') with (S i + (i' - i))%nat by lia.
  rewrite seq_app, big_sum_app.
  assert (0 <= big_sum (seq (0 + S i) (i' - i))
                 (fun j => nth j wcet 0 * (H / nth j period 0))); [|lia].
  apply big_sum_nonneg. intros j Hj. apply in_seq in Hj.
  assert (j <= i')%nat as Hji by lia.
  pose proof (period_pos period wcet i' Hok j Hji) as Hp.
  pose proof (wcet_pos period wcet i' Hok j Hji) as Hw.
  assert (0 <= H / nth j period 0) by (apply Z.div_pos; lia).
  nia.
Qed.

Lemma hyperperiod_fixed_point (period wcet : list Z) (i : nat) (H : Z) :
  prefix_ok period wcet i -> 0 < H ->
  (forall j, (j <= i)%nat -> (nth j period 0 | H)) ->
  hyperperiod_work period wcet i H <= H ->
  exists R, fixed_point period wcet i R /\ R <= H.
Proof.
  intros Hok HH Hdiv Hwork.
  assert (forall j, (j <= i)%nat ->
                    1 <= H / nth j period 0
                    /\ cdiv H (nth j period 0) = H / nth j period 0) as Hq.
  { intros j Hj. pose proof (period_pos period wcet i Hok j Hj) as Hp.
    destruct (Hdiv j Hj) as [q Hqe]. rewrite Hqe.
    rewrite cdiv_multiple, Z.div_mul by lia.
    split; [nia | reflexivity]. }
  assert (response_step period wcet i H <= H) as Hstep.
  { unfold response_step. rewrite hyperperiod_work_snoc in Hwork.
    pose proof (wcet_pos period wcet i Hok i (Nat.le_refl i)) as Hw.
    destruct (Hq i (Nat.le_refl i)) as [Hq1 _].
    assert (big_sum (seq 0 i)
              (fun j => cdiv H (nth j period 0) * nth j wcet 0)
            = big_sum (seq 0 i)
                (fun j => nth j wcet 0 * (H / nth j period 0))) as ->.
    { apply big_sum_ext. intros j Hj. apply in_seq in Hj.
      destruct (Hq j) as [_ ->]; lia. }
    nia. }
  assert (wcet_sum wcet i <= H) as Hseed.
  { assert (wcet_sum wcet i <= hyperperiod_work period wcet i H); [|lia].
    unfold wcet_sum, hyperperiod_work. apply big_sum_le.
    intros j Hj. apply seq_le in Hj.
    pose proof (wcet_pos period wcet i Hok j Hj) as Hw.
    destruct (Hq j Hj) as [Hq1 _]. nia. }
  destruct (orbit_converges (response_step period wcet i)
              (response_step_mono period wcet i Hok)
              H (Z.to_nat (H - wcet_sum wcet i)) (wcet_sum wcet i)
              (a_seq_start period wcet i Hok) Hseed Hstep (Nat.le_refl _))
    as [k [Hk1 Hk2]].
  exists (a_seq period wcet i k). split.
  - exists k. split; [|reflexivity]. rewrite !a_seq_iter. exact Hk1.
  - rewrite a_seq_iter. exact Hk2.
Qed.

(** X11. When the exact utilization is at most 1 and a common multiple of the
    periods fits a [U32_T], [completion_time_feasibility] terminates with a
    verdict.  For a valid task set and a common multiple [H <= 2^32 - 1] of
    its periods such that the jobs released in an interval of length [H]
    take at most [H], every iteration reaches a fixed point below [H], and
    with enough rounds the function returns TRUE or FALSE. *)
Theorem completion_time_terminates
  (n : nat) (period wcet deadline : list Z) (H : Z) :
  task_set n period wcet -> deadlines n deadline ->
  0 < H <= U32_MAX ->
  (forall j, (j < n)%nat -> (nth j period 0 | H)) ->
  hyperperiod_work period wcet (n - 1) H <= H ->
  (forall i, (i < n)%nat -> exists R, fixed_point period wcet i R /\ R <= H)
  /\ exists fuel v,
      completion_time_feasibility fuel n period wcet deadline = Ret v
      /\ (v = TRUE \/ v = FALSE).
Proof.
  intros Hts Hdl HH Hdiv Hwork.
  assert (forall i, (i < n)%nat ->
                    exists R, fixed_point period wcet i R /\ R <= H) as Hfix.
  { intros i Hi.
    apply hyperperiod_fixed_point.
    - exact (task_set_prefix n period wcet i Hts Hi).
    - lia.
    - intros j Hj. apply Hdiv. lia.
    - pose proof (hyperperiod_work_le period wcet i (n - 1) H
                    (task_set_prefix n period wcet (n - 1) Hts ltac:(lia))
                    ltac:(lia) ltac:(lia)).
      lia. }
  split; [exact Hfix|].
  destruct (completion_time_returns n period wcet deadline Hts Hdl)
    as [fuel [v Hv]].
  - intros i Hi. destruct (Hfix i Hi) as [R [HR1 HR2]].
    exists R. split; [exact HR1 | lia].
  - exists fuel, v. split; [exact Hv|].
    exact (completion_loop_verdict _ _ _ _ _ _ Hv).
Qed.

Lemma completion_time_terminates_witness :
  hyperperiod_work [2; 5] [1; 2] (2 - 1) 10 <= 10
  /\ exists fuel v,
      completion_time_feasibility fuel 2 [2; 5] [1; 2] [2; 3] = Ret v
      /\ (v = TRUE \/ v = FALSE).
Proof.
  assert (hyperperiod_work [2; 5] [1; 2] (2 - 1) 10 <= 10) as Hw
    by (vm_compute; discriminate).
  split; [exact Hw|].
  assert (task_set 2 [2; 5] [1; 2]) as Hts by concrete_set.
  assert (deadlines 2 [2; 3]) as Hdl.
  { constructor; [reflexivity|].
    repeat (constructor; [unfold in_u32, U32_MAX; lia|]). constructor. }
  apply (completion_time_terminates 2 [2; 5] [1; 2] [2; 3] 10 Hts Hdl).
  - unfold U32_MAX. lia.
  - intros j Hj.
    assert (j = 0 \/ j = 1)%nat as [ -> | -> ] by lia;
      [exists 5 | exists 2]; reflexivity.
  - exact Hw.
Defined.

(** ** The utilization tests against each other *)

Lemma SFleb_trans (x y z : spec_float) :
  SFleb x y = true -> SFleb y z = true -> SFleb x z = true.
Proof.
  unfold SFleb, SFcompare.
  destruct x as [sx|sx| |sx mx ex], y as [sy|sy| |sy my ey],
    z as [sz|sz| |sz mz ez];
    try destruct sx; try destruct sy; try destruct sz;
    try discriminate; try reflexivity;
    change (Pos.compare_cont Eq) with Pos.compare;
    intros Hxy Hyz;
    destruct (Z.compare_spec ex ey), (Z.compare_spec ey ez),
      (Z.compare_spec ex ez);
    try discriminate; try reflexivity; try lia; subst;
    destruct (Pos.compare_spec mx my), (Pos.compare_spec my mz),
      (Pos.compare_spec mx mz);
    try discriminate; try reflexivity; try lia.
Qed.

(** X12. Whatever the rate-monotonic least upper bound accepts, the EDF and
    LLF tests accept: when the bound [numServices * (pow(2.0, 1.0 /
    numServices) - 1.0)] the code computes is at most [1.0] and
    [rate_monotonic_least_upper_bound] returns TRUE, then [edf_feasibility]
    and [llf_feasibility] return TRUE on the same arrays. *)
Theorem lub_accepts_then_edf
  (pow : Binary64.double -> Binary64.double -> Binary64.double)
  (n : nat) (period wcet deadline : list Z) :
  Binary64.leb (lub_of pow n) Binary64.one = true ->
  rate_monotonic_least_upper_bound pow n period wcet deadline = Ret TRUE ->
  edf_feasibility n period wcet = Ret TRUE
  /\ llf_feasibility n period wcet = Ret TRUE.
Proof.
  intros Hlub. unfold rate_monotonic_least_upper_bound, edf_feasibility,
    llf_feasibility.
  destruct (utilization_loop n period wcet) as [u| |]; cbn [bind];
    try discriminate.
  destruct (Binary64.leb u (lub_of pow n)) eqn:Hu;
    [|unfold TRUE, FALSE; discriminate].
  intros _.
  unfold Binary64.leb in *.
  rewrite (SFleb_trans u (lub_of pow n) Binary64.one Hu Hlub).
  split; reflexivity.
Qed.

Lemma lub_accepts_then_edf_witness :
  Binary64.leb (lub_of (fun x _ => x) 1) Binary64.one = true
  /\ edf_feasibility 1 [4] [4] = Ret TRUE.
Proof.
  assert (Binary64.leb (lub_of (fun x _ => x) 1) Binary64.one = true) as Hl
    by (vm_compute; reflexivity).
  split; [exact Hl|].
  apply (lub_accepts_then_edf (fun x _ => x) 1 [4] [4] [4] Hl).
  vm_compute. reflexivity.
Defined.

(** X13. For [numServices = 0] the rate-monotonic least upper bound rejects:
    [1.0 / numServices] is an infinity, and when [pow(2.0, +inf)] is [+inf],
    as Annex F of the C standard has it, the bound is [0 * inf], a NaN, and
    the comparison with it is false.  The function returns FALSE for the
    empty set, for which [edf_feasibility] and [llf_feasibility] return
    TRUE. *)
Theorem lub_rejects_empty_set
  (pow : Binary64.double -> Binary64.double -> Binary64.double)
  (period wcet deadline : list Z) :
  pow Binary64.two (S754_infinity false) = S754_infinity false ->
  rate_monotonic_least_upper_bound pow 0 period wcet deadline = Ret FALSE
  /\ edf_feasibility 0 period wcet = Ret TRUE
  /\ llf_feasibility 0 period wcet = Ret TRUE.
Proof.
  intros Hpow. split; [|split; reflexivity].
  unfold rate_monotonic_least_upper_bound, lub_of.
  cbn [utilization_loop seq for_each bind Z.of_nat].
  change (Binary64.div Binary64.one (Binary64.of_Z 0))
    with (S754_infinity false).
  rewrite Hpow. reflexivity.
Qed.

Lemma lub_rejects_empty_set_witness :
  rate_monotonic_least_upper_bound (fun _ _ => S754_infinity false) 0 [] [] []
  = Ret FALSE.
Proof.
  exact (proj1 (lub_rejects_empty_set (fun _ _ => S754_infinity false)
                  [] [] [] eq_refl)).
Defined.

(** ** A period of zero in the utilization tests *)

Lemma of_Z_nonneg (w : Z) :
  0 <= w ->
  Binary64.of_Z w = S754_nan \/ Binary64.of_Z w = S754_zero false
  \/ Binary64.of_Z w = S754_infinity false
  \/ exists m e, Binary64.of_Z w = S754_finite false m e.
Proof.
  intros Hw. unfold Binary64.of_Z, binary_normalize.
  destruct w as [|m|m]; [right; left; reflexivity | | lia].
  unfold binary_round.
  destruct (shl_align m 0
              (fexp Binary64.prec Binary64.emax (Z.pos (digits2_pos m) + 0)))
    as [mz ez].
  unfold binary_round_aux.
  destruct (shr_fexp Binary64.prec Binary64.emax (Z.pos mz) ez loc_Exact)
    as [mrs' e'].
  destruct (shr_fexp Binary64.prec Binary64.emax
              (round_nearest_even (shr_m mrs') (loc_of_shr_record mrs'))
              e' loc_Exact) as [mrs'' e''].
  destruct (shr_m mrs'') as [|m'|m'].
  - right. left. reflexivity.
  - destruct (e'' <=? Binary64.emax - Binary64.prec).
    + right. right. right. exists m', e''. reflexivity.
    + right. right. left. reflexivity.
  - left. reflexivity.
Qed.

Lemma div_by_zero_spoilt (w : Z) :
  0 <= w -> spoilt (Binary64.div (Binary64.of_Z w) (Binary64.of_Z 0)).
Proof.
  intros Hw. change (Binary64.of_Z 0) with (S754_zero false).
  unfold spoilt, Binary64.div.
  destruct (of_Z_nonneg w Hw) as [-> | [-> | [-> | [m [e ->]]]]]; cbn; auto.
Qed.

Lemma add_spoilt_r (u t : Binary64.double) :
  spoilt t -> spoilt (Binary64.add u t).
Proof.
  unfold spoilt, Binary64.add.
  intros [-> | ->]; destruct u as [[|]|[|]| |[|] m e]; cbn; auto.
Qed.

Lemma add_spoilt_l (u x : Binary64.double) :
  spoilt u -> spoilt (Binary64.add u x).
Proof.
  unfold spoilt, Binary64.add.
  intros [-> | ->]; destruct x as [[|]|[|]| |[|] m e]; cbn; auto.
Qed.

Lemma spoilt_not_le_one (u : Binary64.double) :
  spoilt u -> Binary64.leb u Binary64.one = false.
Proof. intros [-> | ->]; reflexivity. Qed.

Lemma spoilt_not_le (u b : Binary64.double) :
  spoilt u -> b <> S754_infinity false -> Binary64.leb u b = false.
Proof.
  intros [-> | ->] Hb; [reflexivity|].
  destruct b as [[|]|[|]| |[|] m e]; try reflexivity. congruence.
Qed.

Lemma utilization_spoilt_stays (period wcet : list Z) (js : list nat) :
  forall s u,
    spoilt s ->
    for_each js
      (fun idx sum =>
         w <- read wcet idx ;;
         p <- read period idx ;;
         Ret (Binary64.add sum (Binary64.div (Binary64.of_Z w) (Binary64.of_Z p))))
      s = Ret u ->
    spoilt u.
Proof.
  induction js as [|j js IH]; intros s u Hs H.
  - cbn [for_each] in H. inversion H. subst u. exact Hs.
  - cbn [for_each] in H.
    destruct (read wcet j) as [w| |]; cbn [bind] in H; try discriminate.
    destruct (read period j) as [p| |]; cbn [bind] in H; try discriminate.
    apply (IH _ u (add_spoilt_l s _ Hs) H).
Qed.

Lemma utilization_spoilt (period wcet : list Z) (js : list nat) (j : nat) (w : Z) :
  In j js -> nth_error period j = Some 0 -> nth_error wcet j = Some w ->
  0 <= w ->
  forall s u,
    for_each js
      (fun idx sum =>
         w <- read wcet idx ;;
         p <- read period idx ;;
         Ret (Binary64.add sum (Binary64.div (Binary64.of_Z w) (Binary64.of_Z p))))
      s = Ret u ->
    spoilt u.
Proof.
  intros Hin Hp Hw Hw0. induction js as [|j' js IH]; [destruct Hin|].
  intros s u H. cbn [for_each] in H.
  destruct (Nat.eq_dec j' j) as [-> | Hne].
  - rewrite (read_Some wcet j w Hw), (read_Some period j 0 Hp) in H.
    cbn [bind] in H.
    apply (utilization_spoilt_stays period wcet js _ u
             (add_spoilt_r s _ (div_by_zero_spoilt w Hw0)) H).
  - destruct Hin as [Heq | Hin]; [congruence|].
    destruct (read wcet j') as [w'| |]; cbn [bind] in H; try discriminate.
    destruct (read period j') as [p'| |]; cbn [bind] in H; try discriminate.
    apply (IH Hin _ u H).
Qed.

(** X14. A period of zero makes the utilization tests reject.  The quotient
    [wcet / 0] is an infinity, or a NaN when the execution time is zero too,
    the running sum stays one, and the comparison with it fails: when one of
    the first [numServices] periods is zero, [edf_feasibility] and
    [llf_feasibility] do not return TRUE, nor does
    [rate_monotonic_least_upper_bound] unless its bound is [+inf]. *)
Theorem zero_period_utilization
  (pow : Binary64.double -> Binary64.double -> Binary64.double)
  (n : nat) (period wcet deadline : list Z) (j : nat) (w : Z) :
  (j < n)%nat -> nth_error period j = Some 0 ->
  nth_error wcet j = Some w -> 0 <= w ->
  edf_feasibility n period wcet <> Ret TRUE
  /\ llf_feasibility n period wcet <> Ret TRUE
  /\ (lub_of pow n <> S754_infinity false ->
      rate_monotonic_least_upper_bound pow n period wcet deadline <> Ret TRUE).
Proof.
  intros Hj Hp Hw Hw0.
  assert (forall u, utilization_loop n period wcet = Ret u -> spoilt u) as Hu.
  { intros u H. unfold utilization_loop in H.
    apply (utilization_spoilt period wcet (seq 0 n) j w
             ltac:(apply in_seq; lia) Hp Hw Hw0 _ u H). }
  unfold edf_feasibility, llf_feasibility, rate_monotonic_least_upper_bound.
  destruct (utilization_loop n period wcet) as [u| |]; cbn [bind];
    try (repeat split; intros; discriminate).
  specialize (Hu u eq_refl).
  rewrite (spoilt_not_le_one u Hu).
  split; [unfold TRUE, FALSE; discriminate|].
  split; [unfold TRUE, FALSE; discriminate|].
  intros Hlub. rewrite (spoilt_not_le u _ Hu Hlub).
  unfold TRUE, FALSE. discriminate.
Qed.

Lemma zero_period_utilization_witness :
  edf_feasibility 2 [0; 5] [1; 1] <> Ret TRUE
  /\ edf_feasibility 2 [0; 5] [1; 1] = Ret FALSE.
Proof.
  split; [|vm_compute; reflexivity].
  assert (0 < 2)%nat as Hj by lia.
  assert (0 <= 1) as Hw by lia.
  exact (proj1 (zero_period_utilization (fun x _ => x) 2 [0; 5] [1; 1] [0; 5]
                  0 1 Hj eq_refl eq_refl Hw)).
Defined.

(** ** Rounding in the EDF and LLF tests *)

(** X15. The verdict of the EDF and LLF tests is that of the rounded sum,
    which errs in both directions.  Four tasks of period 10 with execution
    times 4, 2, 3 and 1 fill the processor exactly and both exact tests
    accept them, but the sum computed in [double] is [1 + 2^-52] and
    [edf_feasibility] and [llf_feasibility] return FALSE.  Two tasks with
    periods 1344783569 and 2169254972 and execution times 369241488 and
    1573635757 overload the processor, and the sum computed is [1.0]:
    they return TRUE, while the scheduling-point test returns FALSE. *)
Theorem edf_verdict_is_rounded :
  (let period := [10; 10; 10; 10] in
   let wcet := [4; 2; 3; 1] in
   task_set 4 period wcet
   /\ hyperperiod_work period wcet 3 10 = 10
   /\ completion_time_feasibility 1 4 period wcet period = Ret TRUE
   /\ scheduling_point_feasibility 2 4 period wcet period = Ret TRUE
   /\ edf_feasibility 4 period wcet = Ret FALSE
   /\ llf_feasibility 4 period wcet = Ret FALSE)
  /\ (let period := [1344783569; 2169254972] in
      let wcet := [369241488; 1573635757] in
      task_set 2 period wcet
      /\ nth 0 wcet 0 * nth 1 period 0 + nth 1 wcet 0 * nth 0 period 0
         > nth 0 period 0 * nth 1 period 0
      /\ edf_feasibility 2 period wcet = Ret TRUE
      /\ llf_feasibility 2 period wcet = Ret TRUE
      /\ scheduling_point_feasibility 3 2 period wcet period = Ret FALSE).
Proof.
  split; cbv zeta.
  - split; [concrete_set|]. repeat split; vm_compute; reflexivity.
  - split; [concrete_set|]. repeat split; vm_compute; reflexivity.
Qed.

(** ** The report of the program *)





(** * The firmware *)

Section Firmware_properties.

Import Firmware.

(** ** The sequencer *)

Lemma releases_app (s : semaphore) (t1 t2 : list call) :
  releases s (t1 ++ t2) = releases s t1 + releases s t2.
Proof.
  unfold releases. rewrite filter_app, length_app. lia.
Qed.

Lemma motor_stops_app (t1 t2 : list call) :
  motor_stops (t1 ++ t2) = motor_stops t1 + motor_stops t2.
Proof.
  unfold motor_stops. rewrite filter_app, length_app. lia.
Qed.

Lemma releases_give_checked (pdTRUE : semaphore -> bool) (s s' : semaphore)
  (msg : String.string) :
  releases s (give_checked pdTRUE s' msg)
  = if is_give s (xSemaphoreGiveFromISR s') then 1 else 0.
Proof.
  unfold give_checked, releases. cbn [filter].
  destruct (is_give s (xSemaphoreGiveFromISR s')), (pdTRUE s'); reflexivity.
Qed.

Lemma motor_stops_give_checked (pdTRUE : semaphore -> bool) (s : semaphore)
  (msg : String.string) :
  motor_stops (give_checked pdTRUE s msg) = 0.
Proof.
  unfold give_checked, motor_stops. destruct (pdTRUE s); reflexivity.
Qed.

(** The effect of one interrupt at a count [c >= 0]. *)
Lemma handler_step (pdTRUE : semaphore -> bool) (g : sequencer) :
  0 <= seqCnt g < INT_MAX ->
  exists g' calls,
    Timer0AInterruptHandler pdTRUE g = Ret (g', calls)
    /\ seqCnt g' = seqCnt g + 1
    /\ abortS1 g' = (abortS1 g || (1000 <=? seqCnt g + 1))
    /\ abortS2 g' = (abortS2 g || (1000 <=? seqCnt g + 1))
    /\ abortS3 g' = (abortS3 g || (1000 <=? seqCnt g + 1))
    /\ abortS4 g' = (abortS4 g || (1000 <=? seqCnt g + 1))
    /\ releases semaphore1 calls
       = (if 1000 <=? seqCnt g + 1 then 1
          else if (seqCnt g + 1) mod 20 =? 0 then 1 else 0)
    /\ releases semaphore2 calls = 1
    /\ releases semaphore3 calls = 1
    /\ releases semaphore4 calls
       = (if 1000 <=? seqCnt g + 1 then 1
          else if (seqCnt g + 1) mod 25 =? 0 then 1 else 0)
    /\ motor_stops calls = (if 1000 <=? seqCnt g + 1 then 1 else 0).
Proof.
  intros Hc. unfold Timer0AInterruptHandler.
  rewrite (proj2 (Z.eqb_neq (seqCnt g) INT_MAX)) by lia. cbv zeta.
  destruct (1000 <=? seqCnt g + 1) eqn:Hab.
  - eexists. eexists. split; [reflexivity|]. cbn [seqCnt abortS1 abortS2 abortS3 abortS4].
    rewrite !orb_true_r. repeat split; reflexivity.
  - eexists. eexists. split; [reflexivity|]. cbn [seqCnt abortS1 abortS2 abortS3 abortS4].
    rewrite !orb_false_r.
    rewrite !Z.rem_mod_nonneg by lia.
    rewrite Z.mod_1_r. change (0 =? 0) with true. cbv iota.
    rewrite !releases_app, !motor_stops_app, !releases_give_checked,
      !motor_stops_give_checked.
    destruct ((seqCnt g + 1) mod 20 =? 0), ((seqCnt g + 1) mod 25 =? 0);
      rewrite ?releases_give_checked, ?motor_stops_give_checked;
      repeat split; reflexivity.
Qed.

Lemma multiples_step (c m : Z) :
  0 <= c -> 0 < m ->
  Z.min (c + 1) 999 / m - Z.min c 999 / m
  + Z.max 0 (c + 1 - 999) - Z.max 0 (c - 999)
  = (if 1000 <=? c + 1 then 1 else if (c + 1) mod m =? 0 then 1 else 0).
Proof.
  intros Hc Hm.
  destruct (Z.leb_spec 1000 (c + 1)).
  - rewrite !Z.min_r by lia. rewrite !Z.max_r by lia. lia.
  - rewrite !Z.min_l by lia. rewrite !Z.max_l by lia.
    destruct (Z.eqb_spec ((c + 1) mod m) 0) as [He|He].
    + assert (c + 1 = m * ((c + 1) / m)) as Hd
        by (pose proof (Z.div_mod (c + 1) m); lia).
      assert (c / m = (c + 1) / m - 1); [|lia].
      symmetry. apply (Z.div_unique c m _ (m - 1)); lia.
    + assert (c / m = (c + 1) / m); [|lia].
      pose proof (Z.mod_pos_bound (c + 1) m Hm).
      pose proof (Z.div_mod (c + 1) m).
      symmetry. apply (Z.div_unique c m _ ((c + 1) mod m - 1)); lia.
Qed.

Lemma interrupts_from (answers : list (semaphore -> bool)) :
  forall g,
    0 <= seqCnt g ->
    seqCnt g + Z.of_nat (length answers) <= INT_MAX ->
    let c := seqCnt g in
    let n := Z.of_nat (length answers) in
    let late := (0 <? n) && (1000 <=? c + n) in
    exists g' calls,
      interrupts answers g = Ret (g', calls)
      /\ seqCnt g' = c + n
      /\ abortS1 g' = (abortS1 g || late)
      /\ abortS2 g' = (abortS2 g || late)
      /\ abortS3 g' = (abortS3 g || late)
      /\ abortS4 g' = (abortS4 g || late)
      /\ releases semaphore1 calls
         = Z.min (c + n) 999 / 20 - Z.min c 999 / 20
           + Z.max 0 (c + n - 999) - Z.max 0 (c - 999)
      /\ releases semaphore2 calls = n
      /\ releases semaphore3 calls = n
      /\ releases semaphore4 calls
         = Z.min (c + n) 999 / 25 - Z.min c 999 / 25
           + Z.max 0 (c + n - 999) - Z.max 0 (c - 999)
      /\ motor_stops calls = Z.max 0 (c + n - 999) - Z.max 0 (c - 999).
Proof.
  induction answers as [|pdTRUE rest IH]; intros g Hc Hn; cbv zeta.
  - exists g, []. cbn [interrupts length Z.of_nat].
    rewrite !Z.add_0_r. change (0 <? 0) with false. cbn [andb].
    rewrite !orb_false_r. repeat split; try reflexivity;
      unfold releases, motor_stops; cbn; lia.
  - cbn [length] in Hn. rewrite Nat2Z.inj_succ in Hn.
    destruct (handler_step pdTRUE g ltac:(lia))
      as [g1 [t1 [H1 [Hc1 [Ha1 [Ha2 [Ha3 [Ha4 [Hr1 [Hr2 [Hr3 [Hr4 Hm1]]]]]]]]]]]].
    destruct (IH g1 ltac:(lia) ltac:(lia))
      as [g2 [t2 [H2 [Hc2 [Hb1 [Hb2 [Hb3 [Hb4 [Hs1 [Hs2 [Hs3 [Hs4 Hm2]]]]]]]]]]]].
    exists g2, (t1 ++ t2).
    cbn [interrupts]. rewrite H1. cbn [bind fst snd]. rewrite H2.
    cbn [bind fst snd length]. rewrite Nat2Z.inj_succ.
    set (n := Z.of_nat (length rest)) in *.
    assert (0 <= n) as Hn0 by (unfold n; lia).
    assert ((0 <? Z.succ n) = true) as -> by (apply Z.ltb_lt; lia).
    cbn [andb].
    pose proof (multiples_step (seqCnt g) 20 Hc ltac:(lia)) as M20.
    pose proof (multiples_step (seqCnt g) 25 Hc ltac:(lia)) as M25.
    rewrite Hc1 in *.
    assert (forall b : bool,
               (b || (1000 <=? seqCnt g + 1)
                || ((0 <? n) && (1000 <=? seqCnt g + 1 + n)))%bool
               = (b || (1000 <=? seqCnt g + Z.succ n))%bool) as Hflag.
    { intros b. destruct b; [reflexivity|]. cbn [orb].
      destruct (Z.leb_spec 1000 (seqCnt g + 1)),
        (Z.ltb_spec 0 n), (Z.leb_spec 1000 (seqCnt g + 1 + n)),
        (Z.leb_spec 1000 (seqCnt g + Z.succ n)); cbn; try reflexivity; lia. }
    split; [reflexivity|].
    split; [lia|].
    split; [rewrite Hb1, Ha1; apply Hflag|].
    split; [rewrite Hb2, Ha2; apply Hflag|].
    split; [rewrite Hb3, Ha3; apply Hflag|].
    split; [rewrite Hb4, Ha4; apply Hflag|].
    rewrite !releases_app, motor_stops_app.
    rewrite Hr1, Hr2, Hr3, Hr4, Hm1, Hs1, Hs2, Hs3, Hs4, Hm2.
    replace (seqCnt g + Z.succ n) with (seqCnt g + 1 + n) by lia.
    assert (Z.max 0 (seqCnt g + 1 - 999) - Z.max 0 (seqCnt g - 999)
            = if 1000 <=? seqCnt g + 1 then 1 else 0) as Hmax.
    { destruct (Z.leb_spec 1000 (seqCnt g + 1)); lia. }
    repeat split; lia.
Qed.



(** X18. The release pattern of the sequencer.  In the first [n] timer
    interrupts of the program, whatever FreeRTOS answers, [semaphore2] and
    [semaphore3] are given at every interrupt, [semaphore1] at every 20th
    and [semaphore4] at every 25th of the first 999, and from the thousandth
    interrupt on all four are given every time. *)
Theorem sequencer_releases (answers : list (semaphore -> bool)) :
  Z.of_nat (length answers) <= INT_MAX ->
  let n := Z.of_nat (length answers) in
  exists g calls,
    interrupts answers startup = Ret (g, calls)
    /\ releases semaphore1 calls = Z.min n 999 / 20 + Z.max 0 (n - 999)
    /\ releases semaphore2 calls = n
    /\ releases semaphore3 calls = n
    /\ releases semaphore4 calls = Z.min n 999 / 25 + Z.max 0 (n - 999).
Proof.
  intros Hn n.
  destruct (interrupts_from answers startup ltac:(cbn; lia) ltac:(cbn; lia))
    as [g [calls [H [_ [_ [_ [_ [_ [Hr1 [Hr2 [Hr3 [Hr4 _]]]]]]]]]]]].
  cbn [startup seqCnt] in *. fold n in Hr1, Hr2, Hr3, Hr4.
  rewrite Z.add_0_l in *.
  change (Z.min 0 999 / 20) with 0 in Hr1.
  change (Z.min 0 999 / 25) with 0 in Hr4.
  change (Z.max 0 (0 - 999)) with 0 in *.
  exists g, calls. repeat split; try assumption; lia.
Qed.

Lemma sequencer_releases_witness :
  exists g calls,
    interrupts (repeat (fun _ => false) 50) startup = Ret (g, calls)
    /\ releases semaphore1 calls = 2
    /\ releases semaphore2 calls = 50
    /\ releases semaphore3 calls = 50
    /\ releases semaphore4 calls = 2.
Proof.
  assert (Z.of_nat (length (repeat (fun _ : semaphore => false) 50)) <= INT_MAX)
    as Hn by (vm_compute; discriminate).
  exact (sequencer_releases (repeat (fun _ => false) 50) Hn).
Defined.

(** ** Execution records *)

Lemma store_inside (arr : list Z) (i : nat) (v : Z) :
  (i < length arr)%nat ->
  exists arr',
    store (Some arr) (Z.of_nat i) v = Ret (Some arr')
    /\ length arr' = length arr
    /\ nth_error arr' i = Some v
    /\ firstn (S i) arr' = firstn i arr ++ [v].
Proof.
  intros Hi. unfold store.
  assert ((0 <=? Z.of_nat i) && (Z.of_nat i <? Z.of_nat (length arr)) = true)
    as -> by (apply andb_true_intro; split;
              [apply Z.leb_le | apply Z.ltb_lt]; lia).
  rewrite Nat2Z.id.
  exists (firstn i arr ++ v :: skipn (S i) arr).
  assert (length (firstn i arr) = i) as Hf by (rewrite length_firstn; lia).
  split; [reflexivity|]. split; [|split].
  - rewrite length_app. cbn [length]. rewrite Hf, length_skipn. lia.
  - rewrite nth_error_app2 by lia. rewrite Hf, Nat.sub_diag. reflexivity.
  - rewrite firstn_app, Hf.
    replace (S i - i)%nat with 1%nat by lia.
    rewrite firstn_all2 by lia. reflexivity.
Qed.

Lemma store_outside (arr : list Z) (i v : Z) :
  Z.of_nat (length arr) <= i -> store (Some arr) i v = Undef.
Proof.
  intros Hi. unfold store.
  assert ((i <? Z.of_nat (length arr)) = false) as ->
      by (apply Z.ltb_ge; lia).
  rewrite andb_false_r. reflexivity.
Qed.

Lemma load_inside (arr : list Z) (i : nat) (v : Z) :
  nth_error arr i = Some v -> load (Some arr) (Z.of_nat i) = Ret v.
Proof.
  intros H. unfold load.
  assert ((0 <=? Z.of_nat i) = true) as -> by (apply Z.leb_le; lia).
  rewrite Nat2Z.id. unfold read. rewrite H. reflexivity.
Qed.

Lemma store_not_Timeout (b : block) (i v : Z) : store b i v <> Timeout.
Proof.
  unfold store. destruct b as [arr|]; [|discriminate].
  destruct ((0 <=? i) && (i <? Z.of_nat (length arr))); discriminate.
Qed.

Lemma load_not_Timeout (b : block) (i : Z) : load b i <> Timeout.
Proof.
  unfold load, read. destruct b as [arr|]; [|discriminate].
  destruct (0 <=? i); [|discriminate].
  destruct (nth_error arr (Z.to_nat i)); discriminate.
Qed.

Lemma longest_snoc (M : Z) (runs : list (Z * Z)) (start finish : Z) :
  longest M (runs ++ [(start, finish)])
  = Z.max (longest M runs) ((finish - start) mod M).
Proof. unfold longest. rewrite fold_left_app. reflexivity. Qed.

Lemma longest_ge (M : Z) (runs : list (Z * Z)) :
  forall m r, In r runs ->
              (snd r - fst r) mod M
              <= fold_left (fun m r => Z.max m ((snd r - fst r) mod M)) runs m.
Proof.
  assert (forall runs m,
             m <= fold_left (fun m r => Z.max m ((snd r - fst r) mod M))
                    runs m) as Hmono.
  { clear runs. induction runs as [|r' runs IH]; intros m; cbn [fold_left];
      [lia|].
    specialize (IH (Z.max m ((snd r' - fst r') mod M))). lia. }
  induction runs as [|r' runs IH]; intros m r Hin; [destruct Hin|].
  cbn [fold_left]. destruct Hin as [-> | Hin].
  - specialize (Hmono runs (Z.max m ((snd r - fst r) mod M))). lia.
  - apply IH. exact Hin.
Qed.

Lemma service_execution_recorded (M : Z) (L : nat) (done : list (Z * Z))
  (start finish : Z) (sd : ServiceData) :
  recorded M L done sd -> (length done < L)%nat -> Z.of_nat L <= U32_MAX ->
  exists sd', service_execution M start finish sd = Ret sd'
              /\ recorded M L (done ++ [(start, finish)]) sd'.
Proof.
  intros (Hc & Hw & (st & Hst & Hlst & Hfst) & (en & Hen & Hlen & Hfen)) Hlt HL.
  unfold service_execution. rewrite Hst, Hen, Hc.
  destruct (store_inside st (length done) start ltac:(lia))
    as (st' & Hs1 & Hs2 & Hs3 & Hs4).
  destruct (store_inside en (length done) finish ltac:(lia))
    as (en' & He1 & He2 & He3 & He4).
  rewrite Hs1. cbn [bind]. rewrite He1. cbn [bind]. cbv zeta.
  assert (wrap32 (Z.of_nat (length done) + 1) = Z.of_nat (length done) + 1)
    as Hcnt by (apply wrap32_small; unfold in_u32; lia).
  rewrite Hcnt.
  replace (Z.of_nat (length done) + 1 - 1) with (Z.of_nat (length done)) by lia.
  rewrite (wrap32_small (Z.of_nat (length done))) by (unfold in_u32; lia).
  rewrite (load_inside en' (length done) finish He3). cbn [bind].
  rewrite (load_inside st' (length done) start Hs3). cbn [bind].
  eexists. split; [reflexivity|].
  unfold recorded. cbn [serviceCount wcet startTime endTime].
  rewrite length_app, !map_app, longest_snoc. cbn [length map fst snd].
  replace (length done + 1)%nat with (S (length done)) by lia.
  split; [lia|]. split.
  - rewrite Hw. destruct (Z.ltb_spec (longest M done) ((finish - start) mod M));
      lia.
  - split.
    + exists st'. rewrite Hs4, Hfst. split; [reflexivity|]. split; [lia|].
      reflexivity.
    + exists en'. rewrite He4, Hfen. split; [reflexivity|]. split; [lia|].
      reflexivity.
Qed.

Lemma service_executions_recorded (M : Z) (L : nat) (runs : list (Z * Z)) :
  forall done sd,
    recorded M L done sd -> (length done + length runs <= L)%nat ->
    Z.of_nat L <= U32_MAX ->
    exists sd', service_executions M runs sd = Ret sd'
                /\ recorded M L (done ++ runs) sd'.
Proof.
  induction runs as [|[start finish] rest IH]; intros done sd Hrec Hlen HL.
  - exists sd. rewrite app_nil_r. split; [reflexivity | exact Hrec].
  - cbn [length] in Hlen.
    destruct (service_execution_recorded M L done start finish sd Hrec
                ltac:(lia) HL) as (sd1 & H1 & Hrec1).
    destruct (IH (done ++ [(start, finish)]) sd1 Hrec1) as (sd2 & H2 & Hrec2).
    + rewrite length_app. cbn [length]. lia.
    + exact HL.
    + exists sd2. cbn [service_executions]. rewrite H1. cbn [bind].
      rewrite <- app_assoc in Hrec2. split; [exact H2 | exact Hrec2].
Qed.

Lemma service_executions_overrun (M : Z) (runs : list (Z * Z)) :
  forall sd st,
    startTime sd = Some st ->
    0 <= serviceCount sd <= Z.of_nat (length st) ->
    Z.of_nat (length st) <= U32_MAX ->
    Z.of_nat (length st) < serviceCount sd + Z.of_nat (length runs) ->
    service_executions M runs sd = Undef.
Proof.
  induction runs as [|[start finish] rest IH]; intros sd st Hst Hc HL Hover.
  - cbn [length] in Hover. lia.
  - cbn [service_executions]. unfold service_execution. rewrite Hst.
    destruct (Z.eq_dec (serviceCount sd) (Z.of_nat (length st))) as [Heq|Hne].
    + rewrite store_outside by lia. reflexivity.
    + assert (serviceCount sd = Z.of_nat (Z.to_nat (serviceCount sd))) as Hnat
          by (rewrite Z2Nat.id; lia).
      destruct (store_inside st (Z.to_nat (serviceCount sd)) start ltac:(lia))
        as (st' & Hs1 & Hs2 & _).
      rewrite <- Hnat in Hs1. rewrite Hs1. cbn [bind].
      pose proof (store_not_Timeout (endTime sd) (serviceCount sd) finish)
        as Hn1.
      destruct (store (endTime sd) (serviceCount sd) finish) as [en| |];
        cbn [bind]; try reflexivity; try congruence.
      cbv zeta.
      pose proof (load_not_Timeout en
                    (wrap32 (wrap32 (serviceCount sd + 1) - 1))) as Hn2.
      destruct (load en (wrap32 (wrap32 (serviceCount sd + 1) - 1)))
        as [e| |]; cbn [bind]; try reflexivity; try congruence.
      pose proof (load_not_Timeout (Some st')
                    (wrap32 (wrap32 (serviceCount sd + 1) - 1))) as Hn3.
      destruct (load (Some st') (wrap32 (wrap32 (serviceCount sd + 1) - 1)))
        as [s| |]; cbn [bind]; try reflexivity; try congruence.
      cbn [length] in Hover.
      apply (IH _ st'); cbn [startTime serviceCount];
        rewrite ?wrap32_small by (unfold in_u32; lia);
        try reflexivity; lia.
Qed.

(** X19. The records of a service are complete and [wcet] is their maximum
    as long as the arrays last.  From [InitServiceData] with two arrays of
    [maxExecutions] entries, after [k <= maxExecutions] executions
    [serviceCount] is [k], entry [i] of [startTime] and of [endTime] holds
    the two tick counts of execution [i] for every [i < k], and [wcet] is
    the largest of the differences [endTime[i] - startTime[i]], taken in
    [TickType_t], so that no execution took longer than [wcet]. *)
Theorem service_records (M : Z) (startBlock endBlock : list Z)
  (runs : list (Z * Z)) :
  length startBlock = length endBlock ->
  Z.of_nat (length startBlock) <= U32_MAX ->
  (length runs <= length startBlock)%nat ->
  exists sd,
    service_executions M runs
      (InitServiceData (Some startBlock) (Some endBlock)) = Ret sd
    /\ serviceCount sd = Z.of_nat (length runs)
    /\ wcet sd = longest M runs
    /\ (forall r, In r runs -> (snd r - fst r) mod M <= wcet sd)
    /\ (exists st, startTime sd = Some st
                   /\ firstn (length runs) st = map fst runs)
    /\ (exists en, endTime sd = Some en
                   /\ firstn (length runs) en = map snd runs).
Proof.
  intros Hlen HL Hk.
  destruct (service_executions_recorded M (length startBlock) runs []
              (InitServiceData (Some startBlock) (Some endBlock)))
    as (sd & Hrun & Hc & Hw & (st & Hst & _ & Hfst) & (en & Hen & _ & Hfen)).
  - unfold recorded, InitServiceData.
    cbn [serviceCount wcet startTime endTime length map firstn].
    split; [reflexivity|]. split; [reflexivity|]. split.
    + exists startBlock. auto.
    + exists endBlock. auto.
  - cbn [length]. lia.
  - exact HL.
  - cbn [app] in *. exists sd.
    split; [exact Hrun|]. split; [exact Hc|]. split; [exact Hw|].
    split; [|split].
    + intros r Hin. rewrite Hw. apply longest_ge. exact Hin.
    + exists st. auto.
    + exists en. auto.
Qed.

Lemma service_records_witness :
  exists sd,
    service_executions 4294967296 [(5, 7); (4294967295, 2)]
      (InitServiceData (Some [0; 0; 0]) (Some [0; 0; 0])) = Ret sd
    /\ serviceCount sd = 2
    /\ wcet sd = 3.
Proof.
  destruct (service_records 4294967296 [0; 0; 0] [0; 0; 0]
              [(5, 7); (4294967295, 2)] eq_refl)
    as (sd & Hrun & Hc & Hw & _).
  - vm_compute. discriminate.
  - cbn [length]. lia.
  - exists sd. split; [exact Hrun|]. split; [exact Hc | exact Hw].
Defined.

(** X20. Nothing bounds the number of executions by the size of the arrays:
    whatever the tick counts, the execution after the last that fits writes
    past the end of [startTime].  From [InitServiceData] with a [startTime]
    array of [maxExecutions] entries, every run of more than
    [maxExecutions] executions is undefined; the services allocate 20
    entries, so their 21st execution is. *)
Theorem service_records_overrun (M : Z) (startBlock : list Z) (endBlock : block)
  (runs : list (Z * Z)) :
  Z.of_nat (length startBlock) <= U32_MAX ->
  (length startBlock < length runs)%nat ->
  service_executions M runs (InitServiceData (Some startBlock) endBlock)
  = Undef.
Proof.
  intros HL Hover.
  apply (service_executions_overrun M runs _ startBlock);
    cbn [InitServiceData startTime serviceCount]; try reflexivity; lia.
Qed.

Lemma service_records_overrun_witness :
  service_executions 4294967296 (repeat (0, 1) 21)
    (InitServiceData (Some (repeat 0 20)) (Some (repeat 0 20))) = Undef.
Proof.
  apply (service_records_overrun 4294967296 (repeat 0 20)
           (Some (repeat 0 20)) (repeat (0, 1) 21)).
  - vm_compute. discriminate.
  - vm_compute. lia.
Defined.

End Firmware_properties.

